(** * KPET data layer (kpet/data.py): cases, suites, the database and
      run generation, with the properties its specification states.

    Python objects are modelled as follows.
    - [Case], [Suite] and [Base] instances are records of the attributes the
      constructor binds.  [Case] and [Suite] define neither [__eq__] nor
      [__hash__], so Python sets compare them by object identity: the records
      carry that identity in an [id] field, and two objects with equal
      attributes but different identity are different set members.
    - A Python [set] is a [gset]; a [dict] whose order is never observed is a
      [gmap]; a [dict] whose [values()] order is observed is an association
      list in insertion order.
    - An exception is a constructor of [exn], and a function that may raise
      returns a [result].
    - The dict that [convert] copies and writes to lives in a store of
      objects addressed by identity.
    - A compiled regular expression is represented by its source string, and
      [re.Pattern.match], jinja2, lxml and [os.getenv] by functions taken as
      parameters.
    - kpet/schema.py is modelled from the specification, in [Schema]. *)

From Stdlib Require Import Ascii String.
From stdpp Require Import gmap strings list pretty.

Open Scope string_scope.
Open Scope list_scope.

(* ===================================================================== *)
(** * Python values, exceptions and results *)
(* ===================================================================== *)

(** Data as the schema layer sees it: the values a YAML document parses to,
    compiled regular expressions, and instances of the classes the binder
    builds.  A [dict] keeps its keys in insertion order. *)
#[warnings="-register-all"] Inductive data :=
  | DNone
  | DBool (b : bool)
  | DInt (z : Z)
  | DStr (s : string)
  | DRegex (source : string)
  | DList (elements : list data)
  | DDict (items : list (string * data))
  | DObj (class_name : string) (attrs : list (string * data)).

Abbreviation dict := (list (string * data)).

(** [d.get(k)] on the items of a dict. *)
Fixpoint dict_get {A} (d : list (string * A)) (k : string) : option A :=
  match d with
  | [] => None
  | (k', v) :: rest => if decide (k' = k) then Some v else dict_get rest k
  end.

(** [d[k] = v]: an existing key keeps its position, a new key is appended. *)
Fixpoint dict_set {A} (d : list (string * A)) (k : string) (v : A)
  : list (string * A) :=
  match d with
  | [] => [(k, v)]
  | (k', v') :: rest =>
      if decide (k' = k) then (k, v) :: rest
      else (k', v') :: dict_set rest k v
  end.

(** [list(d.values())]. *)
Definition dict_values {A} (d : list (string * A)) : list A := d.*2.

(** [list(d.keys())]. *)
Definition dict_keys {A} (d : list (string * A)) : list string := d.*1.

(** The exceptions the data layer raises or lets through.  [Invalid] is
    [kpet.schema.Invalid], built from a format string and its arguments.
    [Exception] is the built-in base class raised as such.  The last two
    stand for the errors of the template engine and of the XML parser. *)
Inductive exn :=
  | Invalid (fmt : string) (args : list string)
  | Exception (msg : string)
  | AssertionError
  | KeyError (key : string)
  | TypeError
  | AttributeError
  | TemplateError (msg : string)
  | XMLSyntaxError (msg : string).

Inductive result (A : Type) :=
  | Ok (a : A)
  | Raise (e : exn).
Arguments Ok {A} a.
Arguments Raise {A} e.

#[global] Instance result_ret : MRet result := λ A a, Ok a.
#[global] Instance result_bind : MBind result := λ A B f m,
  match m with
  | Ok a => f a
  | Raise e => Raise e
  end.

Definition newline : string := String "010"%char "".

(** [str.format] with positional arguments, for format strings whose only
    replacement fields are [{}]: each field takes the next argument.  The
    calls in data.py give one argument for one field; a field with no
    argument left, an [IndexError] in Python, is dropped here. *)
Fixpoint str_format (fmt : string) (args : list string) : string :=
  match fmt with
  | EmptyString => ""
  | String "{" (String "}" rest) =>
      match args with
      | a :: args' => (a ++ str_format rest args')%string
      | [] => str_format rest []
      end
  | String c rest => String c (str_format rest args)
  end.

(** Modelled from the spec: the message of [kpet.schema.Invalid], whose
    class is declared in kpet/schema.py; the spec gives the message of
    [Invalid("Invalid {} data", name)] as "Invalid <type> data", that is,
    the format string applied to the arguments. *)
Definition exn_message (e : exn) : string :=
  match e with
  | Invalid fmt args => str_format fmt args
  | Exception msg | TemplateError msg | XMLSyntaxError msg => msg
  | KeyError key => key
  | AssertionError | TypeError | AttributeError => ""
  end.

(** The class of an exception, as [except] clauses see it. *)
Definition is_Invalid (e : exn) : bool :=
  match e with Invalid _ _ => true | _ => false end.

(* ===================================================================== *)
(** * The typed object binder (class Object) *)
(* ===================================================================== *)

Module Object.

(** What [Object.__init__] uses of a recognized [Struct]: the keys of its
    [required] and [optional] dicts, in order, and [validate]. *)
Record Struct := {
  required : list string;
  optional : list string;
  validate : data → result ()
}.

(** What [Object.__init__] uses of the schema it is given: [resolve] and
    [recognize]; [recognize] is [None] when the recognized schema is not
    an instance of [Struct]. *)
Record Schema := {
  resolve : data → result data;
  recognize : option Struct
}.

(** [data[key]]. *)
Definition subscript (d : data) (key : string) : result data :=
  match d with
  | DDict items =>
      match dict_get items key with
      | Some v => Ok v
      | None => Raise (KeyError key)
      end
  | _ => Raise TypeError
  end.

(** [data.get(key, None)]. *)
Definition get (d : data) (key : string) : result data :=
  match d with
  | DDict items => Ok (default DNone (dict_get items key))
  | _ => Raise AttributeError
  end.

(** [for member_name in schema.required.keys(): setattr(...)], on the
    instance's attribute dict. *)
Fixpoint assign_required (names : list string) (d : data) (self : dict)
  : result dict :=
  match names with
  | [] => Ok self
  | member_name :: rest =>
      v ← subscript d member_name;
      assign_required rest d (dict_set self member_name v)
  end.

Fixpoint assign_optional (names : list string) (d : data) (self : dict)
  : result dict :=
  match names with
  | [] => Ok self
  | member_name :: rest =>
      v ← get d member_name;
      assign_optional rest d (dict_set self member_name v)
  end.

(** [Object.__init__]: the attribute dict of the new instance, or the
    exception that leaves the constructor.  [type_name] is
    [type(self).__name__]. *)
Definition init (type_name : string) (schema : Schema) (raw : data)
  : result dict :=
  match resolve schema raw with
  | Raise e =>
      if is_Invalid e then Raise (Invalid "Invalid {} data" [type_name])
      else Raise e
  | Ok d =>
      match recognize schema with
      | None => Raise AssertionError
      | Some struct =>
          match validate struct d with
          | Raise e =>
              if is_Invalid e then
                Raise (Exception
                         (str_format ("Resolved data is invalid:" ++
                                      newline ++ "{}")%string
                                     [exn_message e]))
              else Raise e
          | Ok _ =>
              self ← assign_required (required struct) d [];
              assign_optional (optional struct) d self
          end
      end
  end.

End Object.

(* ===================================================================== *)
(** * The migration function of the index document ([convert]) *)
(* ===================================================================== *)

(** [convert] copies its argument and assigns to a key of the copy.  To
    tell the copy from the original, the objects [convert] is given and
    creates live in a store and are addressed by their identity.  The
    values nested in them are shared by the shallow copy and never written
    to, so they stay plain values. *)
Abbreviation store := (gmap positive data).

(** A new object, at an identity no live object has. *)
Definition alloc (σ : store) (v : data) : positive * store :=
  let ref := fresh (dom σ) in (ref, <[ref := v]> σ).

(** The error of a reference to no object; Python code cannot produce
    one. *)
Definition dangling {A} : result A := Raise (Exception "dangling reference").

(** [obj.copy()]: dicts and lists have the method. *)
Definition copy (σ : store) (ref : positive) : result (positive * store) :=
  match σ !! ref with
  | Some (DDict items) => Ok (alloc σ (DDict items))
  | Some (DList elements) => Ok (alloc σ (DList elements))
  | Some _ => Raise AttributeError
  | None => dangling
  end.

(** [obj[key]] for a string key. *)
Definition getitem (σ : store) (ref : positive) (key : string)
  : result data :=
  match σ !! ref with
  | Some d => Object.subscript d key
  | None => dangling
  end.

(** [obj[key] = v] for a string key. *)
Definition setitem (σ : store) (ref : positive) (key : string) (v : data)
  : result store :=
  match σ !! ref with
  | Some (DDict items) => Ok (<[ref := DDict (dict_set items key v)]> σ)
  | Some _ => Raise TypeError
  | None => dangling
  end.

(** [list(obj.values())]. *)
Definition values_list (d : data) : result data :=
  match d with
  | DDict items => Ok (DList (dict_values items))
  | _ => Raise AttributeError
  end.

(** [convert], the function nested in [Base.__init__]: the reference it
    returns and the store it leaves. *)
Definition convert (old_data : positive) (σ : store)
  : result (positive * store) :=
  '(data, σ) ← copy σ old_data;
  suites ← getitem σ data "suites";
  suites_list ← values_list suites;
  σ ← setitem σ data "suites" suites_list;
  Ok (data, σ).

(** [convert] applied to a value held by nobody else: the value is put in
    a store of its own and the result is read back. *)
Definition convert_value (old_data : data) : result data :=
  '(data, σ) ← convert 1%positive {[ 1%positive := old_data ]};
  match σ !! data with
  | Some d => Ok d
  | None => dangling
  end.

(* ===================================================================== *)
(** * The schema engine (kpet/schema.py) *)
(* ===================================================================== *)

Module Schema.

Inductive kind := KInt | KString | KRegex | KBoolean.

(** Modelled from the spec: the schema nodes of kpet/schema.py, which is
    not among the sources; section 3 of the spec lists the variants
    (scalar, struct with required and optional fields and a strict flag,
    list, dict, typed file with its path rule, class wrapper) and the
    ancestry node (one current schema and an ordered list of migration
    function and prior schema pairs).  [scoped] is the path rule of a
    typed file: a scoped file makes its own directory the root of the
    relative paths inside it. *)
#[warnings="-register-all"] Inductive node :=
  | Scalar (k : kind)
  | Struct (required optional : list (string * node)) (strict : bool)
  | List (element : node)
  | Dict (value : node)
  | TypedFile (scoped : bool) (inner : node)
  | ClassWrapper (target_type : string) (inner : node)
  | Ancestry (current : node)
             (priors : list ((data → result data) * node)).

(** Modelled from the spec: [StrictStruct] of kpet/schema.py, a struct in
    strict mode (section 3): every field given is required and no other
    key is accepted. *)
Definition StrictStruct (fields : list (string * node)) : node :=
  Struct fields [] true.

(** Modelled from the spec: the [InvalidData] failure of the engine
    (section 4.1), an [Invalid] exception carrying a message. *)
Definition invalid {A} (msg : string) : result A := Raise (Invalid msg []).

(** Modelled from the spec: the loop of [resolve] over the elements of a
    list (section 4.1); it stops at the first exception, as the loops
    below do. *)
Fixpoint resolve_all (f : data → result data) (l : list data)
  : result (list data) :=
  match l with
  | [] => Ok []
  | x :: rest =>
      x' ← f x; rest' ← resolve_all f rest; Ok (x' :: rest')
  end.

(** Modelled from the spec: the loop of [resolve] over the values of a
    dict, which keeps the keys and their order. *)
Fixpoint resolve_values (f : data → result data) (items : dict)
  : result dict :=
  match items with
  | [] => Ok []
  | (k, x) :: rest =>
      x' ← f x; rest' ← resolve_values f rest; Ok ((k, x') :: rest')
  end.

(** Modelled from the spec: the loop of [resolve] over the required fields
    of a struct: a missing field is [InvalidData]. *)
Fixpoint resolve_required {N} (f : N → data → result data) (items : dict)
    (fields : list (string * N)) : result dict :=
  match fields with
  | [] => Ok []
  | (name, sub) :: rest =>
      match dict_get items name with
      | Some v =>
          v' ← f sub v;
          rest' ← resolve_required f items rest;
          Ok ((name, v') :: rest')
      | None => invalid "missing required field"
      end
  end.

(** Modelled from the spec: the loop of [resolve] over the optional fields
    of a struct: a missing field is left absent. *)
Fixpoint resolve_optional {N} (f : N → data → result data) (items : dict)
    (fields : list (string * N)) : result dict :=
  match fields with
  | [] => Ok []
  | (name, sub) :: rest =>
      match dict_get items name with
      | Some v =>
          v' ← f sub v;
          rest' ← resolve_optional f items rest;
          Ok ((name, v') :: rest')
      | None => resolve_optional f items rest
      end
  end.

(** Modelled from the spec: the loops of [validate] over the elements of a
    list and over the required and the optional fields of a struct. *)
Fixpoint check_all (f : data → result ()) (l : list data) : result () :=
  match l with
  | [] => Ok ()
  | x :: rest => _ ← f x; check_all f rest
  end.

(** Modelled from the spec: see [check_all]. *)
Fixpoint check_required {N} (f : N → data → result ()) (items : dict)
    (fields : list (string * N)) : result () :=
  match fields with
  | [] => Ok ()
  | (name, sub) :: rest =>
      match dict_get items name with
      | Some v => _ ← f sub v; check_required f items rest
      | None => invalid "missing required field"
      end
  end.

(** Modelled from the spec: see [check_all]. *)
Fixpoint check_optional {N} (f : N → data → result ()) (items : dict)
    (fields : list (string * N)) : result () :=
  match fields with
  | [] => Ok ()
  | (name, sub) :: rest =>
      match dict_get items name with
      | Some v => _ ← f sub v; check_optional f items rest
      | None => check_optional f items rest
      end
  end.

(** Modelled from the spec: the fallback of an ancestry over its prior
    schemas, in order (section 4.2): the first prior schema that resolves
    the raw data decides; its migration function is applied and the result
    resolved with the current schema, where [InvalidData] is fatal; with no
    accepting prior schema the original [InvalidData] is raised. *)
Fixpoint try_priors {N} (resolve_prior : N → result data)
    (resolve_current : data → result data) (original : exn)
    (priors : list ((data → result data) * N)) : result data :=
  match priors with
  | [] => Raise original
  | (migrate, prior) :: rest =>
      match resolve_prior prior with
      | Ok prior_resolved =>
          migrated ← migrate prior_resolved;
          match resolve_current migrated with
          | Ok d => Ok d
          | Raise e =>
              if is_Invalid e then
                Raise (Exception "migrated data is invalid")
              else Raise e
          end
      | Raise e =>
          if is_Invalid e then
            try_priors resolve_prior resolve_current original rest
          else Raise e
      end
  end.

Section Engine.

(** The files of the database by path, each parsed from YAML; the rule
    joining a directory and a relative path; the directory of a file;
    and whether a string compiles as a regular expression. *)
Context (fs : gmap string data).
Context (path_join : string → string → string).
Context (dirname : string → string).
Context (re_compiles : string → bool).

(** Modelled from the spec: the path of the file a string names, in a
    scope (the path rule of section 3): outside any scoped file the path
    is used as given. *)
Definition locate (scope : option string) (path : string) : string :=
  match scope with
  | Some dir => path_join dir path
  | None => path
  end.

(** Modelled from the spec: [resolve] on a scalar (section 4.1):
    a value of the declared kind is accepted, a string is compiled
    where a regular expression is declared, anything else is
    [InvalidData]. *)
Definition resolve_scalar (k : kind) (raw : data) : result data :=
  match k, raw with
  | KInt, DInt z => Ok (DInt z)
  | KString, DStr s => Ok (DStr s)
  | KBoolean, DBool b => Ok (DBool b)
  | KRegex, DStr s =>
      if re_compiles s then Ok (DRegex s)
      else invalid "not a regular expression"
  | KRegex, DRegex s => Ok (DRegex s)
  | _, _ => invalid "wrong kind of scalar"
  end.

(** Modelled from the spec: [validate] on a scalar (section 4.1): the
    per-field kind constraint on a resolved value. *)
Definition validate_scalar (k : kind) (d : data) : result () :=
  match k, d with
  | KInt, DInt _ | KString, DStr _ | KBoolean, DBool _
  | KRegex, DRegex _ => Ok ()
  | _, _ => invalid "wrong kind of scalar"
  end.

(** Modelled from the spec: the keys of a dict that a struct does not
    declare, which a strict struct rejects (section 3). *)
Definition unknown_keys (required optional : list (string * node))
    (items : dict) : list string :=
  filter (λ k, k ∉ dict_keys required ++ dict_keys optional)
         (dict_keys items).

(** Modelled from the spec: [validate] (section 4.1) re-checks a
    resolved value against the required and optional fields of a
    struct and the constraints of each field; a class wrapper accepts
    the instances of its class. *)
Fixpoint validate (n : node) (d : data) {struct n} : result () :=
  match n with
  | Scalar k => validate_scalar k d
  | Struct required optional strict =>
      match d with
      | DDict items =>
          if strict && bool_decide
                         (unknown_keys required optional items ≠ [])
          then invalid "unknown key"
          else
            _ ← check_required validate items required;
            check_optional validate items optional
      | _ => invalid "not a struct"
      end
  | List element =>
      match d with
      | DList elements => check_all (validate element) elements
      | _ => invalid "not a list"
      end
  | Dict value =>
      match d with
      | DDict items => check_all (validate value) (dict_values items)
      | _ => invalid "not a dict"
      end
  | TypedFile _ inner => validate inner d
  | ClassWrapper target_type _ =>
      match d with
      | DObj class_name _ =>
          if decide (class_name = target_type) then Ok ()
          else invalid "instance of another class"
      | _ => invalid "not an instance"
      end
  | Ancestry current _ => validate current d
  end.

(** Modelled from the spec: [recognize] (section 4.1): the innermost
    struct under the wrapper nodes, a bare struct itself; an ancestry
    stands for its current schema. *)
Fixpoint recognize (n : node) : option node :=
  match n with
  | Struct _ _ _ => Some n
  | TypedFile _ inner | ClassWrapper _ inner => recognize inner
  | Ancestry current _ => recognize current
  | Scalar _ | List _ | Dict _ => None
  end.

(** The recognized struct as the binder uses it: the keys of its fields
    and its [validate]. *)
Definition recognized_struct (n : node) : option Object.Struct :=
  match recognize n with
  | Some (Struct required optional strict as struct) =>
      Some {| Object.required := dict_keys required;
              Object.optional := dict_keys optional;
              Object.validate := validate struct |}
  | _ => None
  end.

(** Modelled from the spec: [resolve] (sections 4.1 and 4.2).
    - A struct takes a dict, resolves every required field (a missing
      one is [InvalidData]) and every optional field that is present,
      and in strict mode rejects a key it does not declare; otherwise
      such keys are ignored.
    - A list and a dict resolve their elements and values.
    - A typed file takes a path, loads the document and resolves it;
      a value that is not a path is resolved as the document itself.
    - A class wrapper builds an instance with the binder; an instance
      of the class is already resolved.
    - An ancestry tries the current schema; on [InvalidData] it tries
      the prior schemas in order, migrates the data the first
      accepting one resolved, and resolves the result with the current
      schema, where [InvalidData] is a fatal error; when no prior
      schema accepts, the first [InvalidData] is raised. *)
Fixpoint resolve (n : node) (scope : option string) (raw : data)
    {struct n} : result data :=
  match n with
  | Scalar k => resolve_scalar k raw
  | Struct required optional strict =>
      match raw with
      | DDict items =>
          if strict && bool_decide
                         (unknown_keys required optional items ≠ [])
          then invalid "unknown key"
          else
            r ← resolve_required (λ sub, resolve sub scope) items
                                 required;
            o ← resolve_optional (λ sub, resolve sub scope) items
                                 optional;
            Ok (DDict (r ++ o))
      | _ => invalid "not a struct"
      end
  | List element =>
      match raw with
      | DList elements =>
          l ← resolve_all (resolve element scope) elements;
          Ok (DList l)
      | _ => invalid "not a list"
      end
  | Dict value =>
      match raw with
      | DDict items =>
          l ← resolve_values (resolve value scope) items;
          Ok (DDict l)
      | _ => invalid "not a dict"
      end
  | TypedFile scoped inner =>
      match raw with
      | DStr path =>
          let file := locate scope path in
          match fs !! file with
          | Some document =>
              resolve inner
                      (if scoped then Some (dirname file) else scope)
                      document
          | None => invalid "no such file"
          end
      | _ => resolve inner scope raw
      end
  | ClassWrapper target_type inner =>
      match raw with
      | DObj class_name _ =>
          if decide (class_name = target_type) then Ok raw
          else invalid "instance of another class"
      | _ =>
          attrs ← Object.init target_type
                    {| Object.resolve := resolve inner scope;
                       Object.recognize := recognized_struct inner |}
                    raw;
          Ok (DObj target_type attrs)
      end
  | Ancestry current priors =>
      match resolve current scope raw with
      | Ok d => Ok d
      | Raise original =>
          if is_Invalid original then
            try_priors (λ prior, resolve prior scope raw)
                       (resolve current scope) original priors
          else Raise original
      end
  end.

(** A schema node as the binder uses it. *)
Definition as_schema (n : node) (scope : option string)
  : Object.Schema :=
  {| Object.resolve := resolve n scope;
     Object.recognize := recognized_struct n |}.

End Engine.

(** Nodes under which no file is loaded. *)
Fixpoint file_free (n : node) : bool :=
  match n with
  | Scalar _ => true
  | Struct required optional _ =>
      forallb (λ field, file_free field.2) required &&
      forallb (λ field, file_free field.2) optional
  | List element => file_free element
  | Dict value => file_free value
  | TypedFile _ _ => false
  | ClassWrapper _ inner => file_free inner
  | Ancestry current priors =>
      file_free current && forallb (λ prior, file_free prior.2) priors
  end.

End Schema.

(* ===================================================================== *)
(** * Test cases (class Case) *)
(* ===================================================================== *)

Module Case.

(** The attributes bound by [Case.__init__]: [name] is required, the other
    five are optional and are [None] when absent. *)
Record t := {
  id : positive;
  name : string;
  ignore_panic : option bool;
  hostRequires : option string;
  partitions : option string;
  kickstart : option string;
  tasks : option string
}.

#[global] Instance eq_dec : EqDecision t.
Proof. solve_decision. Defined.

(** Cases are set members: an injection into lists of numbers, one per
    attribute, makes them countable. *)
Definition to_codes (c : t) : list positive :=
  [encode (id c); encode (name c); encode (ignore_panic c);
   encode (hostRequires c); encode (partitions c); encode (kickstart c);
   encode (tasks c)].

Definition of_codes (l : list positive) : option t :=
  match l with
  | [i; n; ip; hr; pa; ks; ta] =>
      i ← decode i; n ← decode n; ip ← decode ip; hr ← decode hr;
      pa ← decode pa; ks ← decode ks; ta ← decode ta;
      Some (Build_t i n ip hr pa ks ta)
  | _ => None
  end.

#[global] Instance countable : Countable t.
Proof.
  refine (inj_countable to_codes of_codes _).
  intros []. unfold to_codes, of_codes. cbn -[decode encode].
  rewrite !decode_encode. reflexivity.
Defined.

(** The schema [Case.__init__] passes to the binder. *)
Definition schema : Schema.node :=
  Schema.Struct
    [("name", Schema.Scalar Schema.KString)]
    [("ignore_panic", Schema.Scalar Schema.KBoolean);
     ("hostRequires", Schema.Scalar Schema.KString);
     ("partitions", Schema.Scalar Schema.KString);
     ("kickstart", Schema.Scalar Schema.KString);
     ("tasks", Schema.Scalar Schema.KString)]
    false.

End Case.

(* ===================================================================== *)
(** * Pattern entries of a suite *)
(* ===================================================================== *)

Module Pattern.

(** One element of [Suite.patterns]: the resolved
    [StrictStruct(pattern=Regex(), case_name=String())].  [pattern] is the
    source of the compiled regular expression. *)
Record t := {
  pattern : string;
  case_name : string
}.

#[global] Instance eq_dec : EqDecision t.
Proof. solve_decision. Defined.

Definition to_codes (p : t) : list positive :=
  [encode (pattern p); encode (case_name p)].

Definition of_codes (l : list positive) : option t :=
  match l with
  | [r; n] => r ← decode r; n ← decode n; Some (Build_t r n)
  | _ => None
  end.

#[global] Instance countable : Countable t.
Proof.
  refine (inj_countable to_codes of_codes _).
  intros []. unfold to_codes, of_codes. cbn -[decode encode].
  rewrite !decode_encode. reflexivity.
Defined.

End Pattern.

(* ===================================================================== *)
(** * Test suites (class Suite) *)
(* ===================================================================== *)

Module Suite.

Record t := {
  id : positive;
  description : string;
  version : string;
  patterns : list Pattern.t;
  cases : list Case.t;
  tasks : option string;
  ignore_panic : option bool;
  hostRequires : option string;
  partitions : option string;
  kickstart : option string
}.

#[global] Instance eq_dec : EqDecision t.
Proof. solve_decision. Defined.

(** Suites are set members too ([Base.match_suite_set]). *)
Definition to_codes (s : t) : list positive :=
  [encode (id s); encode (description s); encode (version s);
   encode (patterns s); encode (cases s); encode (tasks s);
   encode (ignore_panic s); encode (hostRequires s);
   encode (partitions s); encode (kickstart s)].

Definition of_codes (l : list positive) : option t :=
  match l with
  | [i; d; v; ps; cs; ta; ip; hr; pa; ks] =>
      i ← decode i; d ← decode d; v ← decode v; ps ← decode ps;
      cs ← decode cs; ta ← decode ta; ip ← decode ip; hr ← decode hr;
      pa ← decode pa; ks ← decode ks;
      Some (Build_t i d v ps cs ta ip hr pa ks)
  | _ => None
  end.

#[global] Instance countable : Countable t.
Proof.
  refine (inj_countable to_codes of_codes _).
  intros []. unfold to_codes, of_codes. cbn -[decode encode].
  rewrite !decode_encode. reflexivity.
Defined.

(** The loop of [get_case] over [self.cases]: return at the first case
    whose name is the one looked for, [None] when the loop ends. *)
Fixpoint get_case_loop (cases : list Case.t) (name : string)
  : option Case.t :=
  match cases with
  | [] => None
  | case :: rest =>
      if decide (Case.name case = name) then Some case
      else get_case_loop rest name
  end.

Definition get_case (self : t) (name : string) : option Case.t :=
  get_case_loop (cases self) name.

(** The same suite object with another [patterns] list (used to state what
    a pattern contributes). *)
Definition with_patterns (self : t) (ps : list Pattern.t) : t :=
  {| id := id self; description := description self;
     version := version self; patterns := ps; cases := cases self;
     tasks := tasks self; ignore_panic := ignore_panic self;
     hostRequires := hostRequires self; partitions := partitions self;
     kickstart := kickstart self |}.

(** The schema [Suite.__init__] passes to the binder. *)
Definition schema : Schema.node :=
  Schema.Struct
    [("description", Schema.Scalar Schema.KString);
     ("version", Schema.Scalar Schema.KString);
     ("patterns",
      Schema.List
        (Schema.StrictStruct [("pattern", Schema.Scalar Schema.KRegex);
                       ("case_name", Schema.Scalar Schema.KString)]));
     ("cases", Schema.List (Schema.ClassWrapper "Case" Case.schema))]
    [("tasks", Schema.Scalar Schema.KString);
     ("ignore_panic", Schema.Scalar Schema.KBoolean);
     ("hostRequires", Schema.Scalar Schema.KString);
     ("partitions", Schema.Scalar Schema.KString);
     ("kickstart", Schema.Scalar Schema.KString)]
    false.

Section Matching.

(** [re_match r s] is [true] when [re.compile(r).match(s)] returns a
    match object (which is always truthy) and [false] when it returns
    [None]. *)
Context (re_match : string → string → bool).

(** Body of the inner loop of [match_case_set], for one pattern and one
    source path.  A [Case] object is always truthy, so [if case:] only
    tests that [get_case] did not return [None]. *)
Definition match_step (self : t) (pattern : Pattern.t)
    (case_set : gset Case.t) (src_path : string) : gset Case.t :=
  if re_match (Pattern.pattern pattern) src_path then
    match get_case self (Pattern.case_name pattern) with
    | Some case => case_set ∪ {[ case ]}
    | None => case_set
    end
  else case_set.

Definition match_case_set (self : t) (src_path_set : gset string)
  : gset Case.t :=
  if bool_decide (src_path_set ≠ ∅) then
    foldl (λ case_set pattern,
             foldl (match_step self pattern) case_set
                   (elements src_path_set))
          ∅ (patterns self)
  else list_to_set (cases self).

Definition matches (self : t) (src_path_set : gset string) : bool :=
  bool_decide (match_case_set self src_path_set ≠ ∅).

End Matching.

End Suite.

(* ===================================================================== *)
(** * Interfaces of the template engine and of the XML library *)
(* ===================================================================== *)

(** The options [get_tree_template] passes to [jinja2.Environment].
    [autoescape_enabled_extensions] is the value written in the source,
    the string [('xml')]. *)
Record JinjaEnvironment := {
  loader_searchpath : list string;
  trim_blocks : bool;
  keep_trailing_newline : bool;
  lstrip_blocks : bool;
  autoescape_enabled_extensions : string;
  autoescape_default_for_string : bool
}.

(** The keyword arguments of [etree.XMLParser]. *)
Record XMLParser := {
  remove_blank_text : bool;
  parser_encoding : string
}.

(** The keyword arguments of [etree.tostring]. *)
Record TostringOptions := {
  tostring_encoding : string;
  xml_declaration : bool;
  pretty_print : bool
}.

Module Params.

(** The bindings [generate_run] hands to the template. *)
Record t := {
  DESCRIPTION : string;
  KURL : string;
  ARCH : string;
  TREE : string;
  SRC_PATH_SET : gset string;
  SUITE_SET : gset Suite.t;
  match_suite_set : gset string → gset Suite.t;
  match_case_set : gset string → gset Case.t;
  getenv : string → option string
}.

End Params.

(* ===================================================================== *)
(** * The database (class Base): selection and run generation *)
(* ===================================================================== *)

Module Base.

(** The attributes of a database: the three fields of the index document
    and [dir_path]. *)
Record t := {
  dir_path : string;
  schema_version : Z;
  suites : list Suite.t;
  trees : gmap string string
}.

(** The same database with another [suites] list. *)
Definition with_suites (self : t) (ss : list Suite.t) : t :=
  {| dir_path := dir_path self; schema_version := schema_version self;
     suites := ss; trees := trees self |}.

(** The fields of the index document: [StrictStruct(version=Int())],
    [YAMLFile(Class(Suite))] and [Dict(String())]. *)
Definition version_struct : Schema.node :=
  Schema.StrictStruct [("version", Schema.Scalar Schema.KInt)].

Definition suite_file : Schema.node :=
  Schema.TypedFile false (Schema.ClassWrapper "Suite" Suite.schema).

Definition trees_dict : Schema.node :=
  Schema.Dict (Schema.Scalar Schema.KString).

(** The two shapes of the index document given to [Ancestry]: the one
    with the suites in a dict, and the current one with the suites in a
    list. *)
Definition legacy_index : Schema.node :=
  Schema.StrictStruct
    [("schema", version_struct);
     ("suites", Schema.Dict suite_file);
     ("trees", trees_dict)].

Definition current_index : Schema.node :=
  Schema.StrictStruct
    [("schema", version_struct);
     ("suites", Schema.List suite_file);
     ("trees", trees_dict)].

(** The schema [Base.__init__] passes to the binder: the scoped YAML
    file of the ancestry of the two shapes.  The source lists the shapes
    from the oldest to the current one, with the function that converts
    each into the next between them. *)
Definition index_schema : Schema.node :=
  Schema.TypedFile true
    (Schema.Ancestry current_index [(convert_value, legacy_index)]).

Section Construction.

Context (fs : gmap string data).
Context (path_join : string → string → string).
Context (dirname : string → string).
Context (re_compiles : string → bool).

Definition index_path (dir_path : string) : string :=
  (dir_path ++ "/index.yaml")%string.

(** [os.path.isfile(dir_path + "/index.yaml")]. *)
Definition is_dir_valid (dir_path : string) : bool :=
  bool_decide (is_Some (fs !! index_path dir_path)).

(** [Base.__init__]: the attribute dict of the database. *)
Definition init (dir_path : string) : result dict :=
  if is_dir_valid dir_path then
    self ← Object.init "Base"
             (Schema.as_schema fs path_join dirname re_compiles
                               index_schema None)
             (DStr (index_path dir_path));
    Ok (dict_set self "dir_path" (DStr dir_path))
  else Raise AssertionError.

End Construction.

Section Matching.

Context (re_match : string → string → bool).

Definition match_suite_set (self : t) (src_path_set : gset string)
  : gset Suite.t :=
  list_to_set
    (filter (λ suite, Suite.matches re_match suite src_path_set = true)
            (suites self)).

Definition match_case_set (self : t) (src_path_set : gset string)
  : gset Case.t :=
  foldl (λ case_set suite,
           case_set ∪ Suite.match_case_set re_match suite src_path_set)
        ∅ (suites self).

End Matching.

Section Rendering.

(** The collaborators of [generate_run]: the regular expression
    matcher, [os.getenv], jinja2 ([Environment.get_template] and
    [Template.render]) and lxml ([etree.XML], [etree.tostring]) with
    [bytes.decode].  Each may raise. *)
Context (re_match : string → string → bool).
Context (os_getenv : string → option string).
Context {Template Element : Type}.
Context (get_template : JinjaEnvironment → string → result Template).
Context (render : Template → Params.t → result string).
Context (etree_XML : string → XMLParser → result Element).
Context (etree_tostring : Element → TostringOptions → string).
Context (decode : string → string → result string).

Definition jinja_env (self : t) : JinjaEnvironment :=
  {| loader_searchpath := [dir_path self];
     trim_blocks := true;
     keep_trailing_newline := true;
     lstrip_blocks := true;
     autoescape_enabled_extensions := "xml";
     autoescape_default_for_string := true |}.

Definition get_tree_template (self : t) (tree_name : string)
  : result Template :=
  match trees self !! tree_name with
  | None => Raise AssertionError
  | Some template_path => get_template (jinja_env self) template_path
  end.

(** The [params] dict of [generate_run]. *)
Definition run_params (self : t)
    (description tree_name arch_name kernel_location : string)
    (src_path_set : gset string) : Params.t :=
  {| Params.DESCRIPTION := description;
     Params.KURL := kernel_location;
     Params.ARCH := arch_name;
     Params.TREE := tree_name;
     Params.SRC_PATH_SET := src_path_set;
     Params.SUITE_SET := list_to_set (suites self);
     Params.match_suite_set := match_suite_set re_match self;
     Params.match_case_set := match_case_set re_match self;
     Params.getenv := os_getenv |}.

(** The lint pass at the end of [generate_run]. *)
Definition lint_text (text : string) : result string :=
  let parser := {| remove_blank_text := true;
                   parser_encoding := "utf-8" |} in
  tree ← etree_XML text parser;
  decode (etree_tostring tree {| tostring_encoding := "utf-8";
                                 xml_declaration := true;
                                 pretty_print := true |})
         "utf-8".

(** [generate_run].  The arguments are typed, so the [isinstance]
    assertions hold; the assertion left is [tree_name in self.trees]. *)
Definition generate_run (self : t)
    (description tree_name arch_name kernel_location : string)
    (src_path_set : gset string) (lint : bool) : result string :=
  if bool_decide (tree_name ∈ dom (trees self)) then
    let params := run_params self description tree_name arch_name
                             kernel_location src_path_set in
    template ← get_tree_template self tree_name;
    text ← render template params;
    if lint then lint_text text else Ok text
  else Raise AssertionError.

End Rendering.

End Base.

(** A concrete matcher for patterns made of literal characters only: for
    such a pattern [re.match] succeeds exactly when the pattern is a prefix
    of the string. *)
Definition literal_match (r s : string) : bool := String.prefix r s.

(* ===================================================================== *)
(** * From bound instances to typed records *)
(* ===================================================================== *)

(** The matching functions read the attributes of [Case], [Suite] and
    [Base] instances through the records [Case.t], [Suite.t] and [Base.t].
    The functions below read such a record off the attribute dict the
    binder produced.  Every instance gets an identity of its own: a suite
    is numbered by its position in the database, a case by its suite and
    its position in the suite. *)

Definition as_string (d : data) : option string :=
  match d with DStr s => Some s | _ => None end.

Definition as_optional_string (d : data) : option (option string) :=
  match d with DNone => Some None | DStr s => Some (Some s) | _ => None end.

Definition as_optional_bool (d : data) : option (option bool) :=
  match d with DNone => Some None | DBool b => Some (Some b) | _ => None end.

(** The elements of a list, each read with its position. *)
Fixpoint read_all {A} (f : positive → data → option A) (position : positive)
    (l : list data) : option (list A) :=
  match l with
  | [] => Some []
  | x :: rest =>
      a ← f position x;
      others ← read_all f (Pos.succ position) rest;
      Some (a :: others)
  end.

Definition case_of_object (suite_id position : positive) (d : data)
  : option Case.t :=
  match d with
  | DObj "Case" attrs =>
      name ← dict_get attrs "name" ≫= as_string;
      ignore_panic ← dict_get attrs "ignore_panic" ≫= as_optional_bool;
      hostRequires ← dict_get attrs "hostRequires" ≫= as_optional_string;
      partitions ← dict_get attrs "partitions" ≫= as_optional_string;
      kickstart ← dict_get attrs "kickstart" ≫= as_optional_string;
      tasks ← dict_get attrs "tasks" ≫= as_optional_string;
      Some {| Case.id := encode (suite_id, position); Case.name := name;
              Case.ignore_panic := ignore_panic;
              Case.hostRequires := hostRequires;
              Case.partitions := partitions; Case.kickstart := kickstart;
              Case.tasks := tasks |}
  | _ => None
  end.

Definition pattern_of_data (position : positive) (d : data)
  : option Pattern.t :=
  match d with
  | DDict items =>
      pattern ← dict_get items "pattern"
                ≫= (λ r, match r with DRegex s => Some s | _ => None end);
      case_name ← dict_get items "case_name" ≫= as_string;
      Some {| Pattern.pattern := pattern; Pattern.case_name := case_name |}
  | _ => None
  end.

Definition suite_of_object (id : positive) (d : data) : option Suite.t :=
  match d with
  | DObj "Suite" attrs =>
      description ← dict_get attrs "description" ≫= as_string;
      version ← dict_get attrs "version" ≫= as_string;
      patterns ← dict_get attrs "patterns"
                 ≫= (λ p, match p with
                          | DList l => read_all pattern_of_data 1 l
                          | _ => None
                          end);
      cases ← dict_get attrs "cases"
              ≫= (λ c, match c with
                       | DList l => read_all (case_of_object id) 1 l
                       | _ => None
                       end);
      tasks ← dict_get attrs "tasks" ≫= as_optional_string;
      ignore_panic ← dict_get attrs "ignore_panic" ≫= as_optional_bool;
      hostRequires ← dict_get attrs "hostRequires" ≫= as_optional_string;
      partitions ← dict_get attrs "partitions" ≫= as_optional_string;
      kickstart ← dict_get attrs "kickstart" ≫= as_optional_string;
      Some {| Suite.id := id; Suite.description := description;
              Suite.version := version; Suite.patterns := patterns;
              Suite.cases := cases; Suite.tasks := tasks;
              Suite.ignore_panic := ignore_panic;
              Suite.hostRequires := hostRequires;
              Suite.partitions := partitions;
              Suite.kickstart := kickstart |}
  | _ => None
  end.

(** The database record of the attribute dict [Base.init] returns. *)
Definition base_of_attrs (self : dict) : option Base.t :=
  dir_path ← dict_get self "dir_path" ≫= as_string;
  schema_version ← dict_get self "schema"
                   ≫= (λ s, match s with
                            | DDict [("version", DInt z)] => Some z
                            | _ => None
                            end);
  suites ← dict_get self "suites"
           ≫= (λ s, match s with
                    | DList l => read_all suite_of_object 1 l
                    | _ => None
                    end);
  trees ← dict_get self "trees"
          ≫= (λ t, match t with
                   | DDict items =>
                       list_to_map <$> mapM (λ kv, s ← as_string kv.2;
                                                   Some (kv.1, s)) items
                   | _ => None
                   end);
  Some {| Base.dir_path := dir_path; Base.schema_version := schema_version;
          Base.suites := suites; Base.trees := trees |}.

(* ===================================================================== *)
(** * Concrete suites *)
(* ===================================================================== *)

Definition mk_case (i : positive) (n : string) : Case.t :=
  {| Case.id := i; Case.name := n; Case.ignore_panic := None;
     Case.hostRequires := None; Case.partitions := None;
     Case.kickstart := None; Case.tasks := None |}.

Definition mk_suite (i : positive) (ps : list Pattern.t) (cs : list Case.t)
  : Suite.t :=
  {| Suite.id := i; Suite.description := "suite"; Suite.version := "1";
     Suite.patterns := ps; Suite.cases := cs; Suite.tasks := None;
     Suite.ignore_panic := None; Suite.hostRequires := None;
     Suite.partitions := None; Suite.kickstart := None |}.

Definition net_tests : Case.t := mk_case 1 "net-tests".

(** A second case object with the same name and another optional field. *)
Definition net_tests_dup : Case.t :=
  {| Case.id := 2; Case.name := "net-tests"; Case.ignore_panic := Some true;
     Case.hostRequires := None; Case.partitions := None;
     Case.kickstart := None; Case.tasks := None |}.

Definition net_pattern : Pattern.t :=
  {| Pattern.pattern := "drivers/net/"; Pattern.case_name := "net-tests" |}.

(** A pattern naming a case that no suite below declares. *)
Definition fs_pattern : Pattern.t :=
  {| Pattern.pattern := "fs/"; Pattern.case_name := "fs-tests" |}.

Definition net_suite : Suite.t := mk_suite 10 [net_pattern] [net_tests].
Definition staged_suite : Suite.t :=
  mk_suite 11 [fs_pattern; net_pattern] [net_tests].
Definition dup_suite : Suite.t :=
  mk_suite 12 [net_pattern; net_pattern] [net_tests; net_tests_dup].
Definition empty_suite : Suite.t := mk_suite 13 [net_pattern] [].

(** A suite of three cases with three names. *)
Definition mm_tests : Case.t := mk_case 3 "mm-tests".
Definition block_tests : Case.t := mk_case 4 "block-tests".
Definition kernel_suite : Suite.t :=
  mk_suite 14 [net_pattern] [net_tests; mm_tests; block_tests].

Definition example_db : Base.t :=
  {| Base.dir_path := "/db"; Base.schema_version := 1;
     Base.suites := [net_suite; empty_suite; dup_suite];
     Base.trees := {[ "upstream" := "trees/upstream.xml" ]} |}.


(* ===================================================================== *)
(** * A concrete database on disk and concrete collaborators *)
(* ===================================================================== *)

Fixpoint has_slash (s : string) : bool :=
  match s with
  | EmptyString => false
  | String c rest => if decide (c = "/"%char) then true else has_slash rest
  end.

(** The part of a path before its last slash. *)
Fixpoint posix_dirname (s : string) : string :=
  match s with
  | EmptyString => ""
  | String c rest =>
      if has_slash rest then String c (posix_dirname rest) else ""
  end.

Definition posix_join (dir path : string) : string :=
  (dir ++ "/" ++ path)%string.

Definition net_document : data :=
  DDict [("description", DStr "network tests"); ("version", DStr "1");
         ("patterns",
          DList [DDict [("pattern", DStr "drivers/net/");
                        ("case_name", DStr "net-tests")]]);
         ("cases", DList [DDict [("name", DStr "net-tests")]])].

Definition fs_document : data :=
  DDict [("description", DStr "file system tests"); ("version", DStr "2");
         ("patterns", DList []);
         ("cases", DList [DDict [("name", DStr "fs-tests");
                                 ("tasks", DStr "fs.xml")]])].

Definition legacy_suites : dict :=
  [("net", DStr "suites/net.yaml"); ("fs", DStr "suites/fs.yaml")].

Definition legacy_items : dict :=
  [("schema", DDict [("version", DInt 1)]);
   ("suites", DDict legacy_suites);
   ("trees", DDict [("upstream", DStr "trees/upstream.xml")])].

(** The same suite documents, listed in the other order. *)
Definition current_suites : list data :=
  [DStr "suites/fs.yaml"; DStr "suites/net.yaml"].

Definition legacy_fs : gmap string data :=
  {[ "/db/index.yaml" := DDict legacy_items;
     "/db/suites/net.yaml" := net_document;
     "/db/suites/fs.yaml" := fs_document ]}.

Definition every_regex (s : string) : bool := true.

(** A schema whose [resolve] accepts anything and whose recognized struct
    rejects everything. *)
Definition inconsistent_schema : Object.Schema :=
  {| Object.resolve := λ d, Ok d;
     Object.recognize :=
       Some {| Object.required := ["name"]; Object.optional := [];
               Object.validate := λ _, Schema.invalid "never valid" |} |}.

Definition toy_get_template (env : JinjaEnvironment) (name : string)
  : result string :=
  if decide (name = "trees/upstream.xml") then Ok name
  else Raise (TemplateError "template not found").

(** The template of the end-to-end scenario of the spec. *)
Definition toy_render (template : string) (params : Params.t)
  : result string :=
  let n := size (Params.SUITE_SET params) in
  if decide (n = 0) then Ok "<job/>"
  else Ok ("<job>" ++ pretty n ++ " suites</job>")%string.

(** A template whose output is not XML. *)
Definition toy_render_text (template : string) (params : Params.t)
  : result string :=
  Ok (Params.DESCRIPTION params).

Definition toy_XML (text : string) (parser : XMLParser) : result string :=
  if String.prefix "<" text then Ok text
  else Raise (XMLSyntaxError "start tag expected").

Definition toy_tostring (tree : string) (options : TostringOptions)
  : string :=
  ((if xml_declaration options then "<?xml version='1.0'?>" else "")
   ++ tree)%string.

Definition toy_decode (bytes encoding : string) : result string := Ok bytes.

Definition no_environment (name : string) : option string := None.

(** The database on disk, constructed and read as a record. *)
Definition legacy_db : option Base.t :=
  match Base.init legacy_fs posix_join posix_dirname every_regex "/db" with
  | Ok self => base_of_attrs self
  | Raise _ => None
  end.

(** A schema that resolves every value to itself and whose recognized
    struct, with two required keys and one optional key, finds every value
    valid. *)
Definition lenient_schema : Object.Schema :=
  {| Object.resolve := λ d, Ok d;
     Object.recognize :=
       Some {| Object.required := ["name"; "version"];
               Object.optional := ["tasks"];
               Object.validate := λ _, Ok () |} |}.

(** A schema whose [resolve] finds every value invalid, with a message of
    its own. *)
Definition rejecting_schema : Object.Schema :=
  {| Object.resolve := λ _, Raise (Invalid "{}: not a string" ["name"]);
     Object.recognize := Object.recognize lenient_schema |}.
(* ===================================================================== *)
(** * Properties of case lookup and selection *)
(* ===================================================================== *)

Section SelectionFacts.

Context (re_match : string → string → bool).

Implicit Types (s : Suite.t) (c : Case.t) (pat : Pattern.t)
  (paths : gset string) (db : Base.t).

Lemma get_case_loop_Some cs n c :
  Suite.get_case_loop cs n = Some c ↔
  ∃ before after, cs = before ++ c :: after ∧ Case.name c = n ∧
                  ∀ c', c' ∈ before → Case.name c' ≠ n.
Proof.
  induction cs as [|c0 cs IH]; simpl.
  - split; [done|]. intros (b & a & Heq & _). by destruct b.
  - destruct (decide (Case.name c0 = n)) as [Hn|Hn].
    + split.
      * intros [= ->]. exists [], cs. split_and!; [done..|].
        intros c' Hc'. by apply elem_of_nil in Hc'.
      * intros (b & a & Heq & Hc & Hb). destruct b as [|c1 b]; simpl in Heq.
        -- by injection Heq as -> _.
        -- injection Heq as -> _. exfalso. apply (Hb c1); [left | done].
    + rewrite IH. split.
      * intros (b & a & -> & Hc & Hb). exists (c0 :: b), a.
        split_and!; [done..|]. intros c' [->|Hc']%elem_of_cons; auto.
      * intros (b & a & Heq & Hc & Hb). destruct b as [|c1 b]; simpl in Heq.
        -- injection Heq as -> _. done.
        -- injection Heq as -> ->. exists b, a. split_and!; [done..|].
           intros c' Hc'. apply Hb. by right.
Qed.

Lemma get_case_loop_None cs n :
  Suite.get_case_loop cs n = None ↔ ∀ c, c ∈ cs → Case.name c ≠ n.
Proof.
  induction cs as [|c0 cs IH]; simpl.
  - split; [|done]. intros _ c Hc. by apply elem_of_nil in Hc.
  - destruct (decide (Case.name c0 = n)) as [Hn|Hn].
    + split; [done|]. intros H. exfalso. apply (H c0); [left | done].
    + rewrite IH. split.
      * intros H c [->|Hc]%elem_of_cons; auto.
      * intros H c Hc. apply H. by right.
Qed.

Lemma get_case_elem_of s n c :
  Suite.get_case s n = Some c → c ∈ Suite.cases s ∧ Case.name c = n.
Proof.
  unfold Suite.get_case. intros (b & a & -> & Hn & _)%get_case_loop_Some.
  split; [|done]. apply elem_of_app. right. left.
Qed.

(** What one pass of the inner loop adds to the accumulated set. *)
Lemma elem_of_inner_loop s pat (l : list string) (acc : gset Case.t) c :
  c ∈ foldl (Suite.match_step re_match s pat) acc l ↔
  c ∈ acc ∨ ∃ p, p ∈ l ∧ re_match (Pattern.pattern pat) p = true ∧
                 Suite.get_case s (Pattern.case_name pat) = Some c.
Proof.
  revert acc. induction l as [|p l IH]; intros acc; simpl.
  - split; [by left|]. intros [?|(p & Hp & _)]; [done|].
    by apply elem_of_nil in Hp.
  - rewrite IH. unfold Suite.match_step.
    destruct (re_match (Pattern.pattern pat) p) eqn:Hm.
    + destruct (Suite.get_case s (Pattern.case_name pat)) as [c0|] eqn:Hg.
      * rewrite elem_of_union, elem_of_singleton. split.
        -- intros [[?| ->]|(q & Hq & ? & ?)]; [by left| |].
           ++ right. exists p. split_and!; [left|done..].
           ++ right. exists q. split_and!; [by right|done..].
        -- intros [?|(q & [->|Hq]%elem_of_cons & ? & ?)].
           ++ by left; left.
           ++ left; right. congruence.
           ++ right. by exists q.
      * split.
        -- intros [?|(q & Hq & ? & ?)]; [by left|]. right. exists q.
           split_and!; [by right|done..].
        -- intros [?|(q & _ & _ & ?)]; [by left|done].
    + split.
      * intros [?|(q & Hq & ? & ?)]; [by left|]. right. exists q.
        split_and!; [by right|done..].
      * intros [?|(q & [->|Hq]%elem_of_cons & ? & ?)];
          [by left|congruence|]. right. by exists q.
Qed.

(** What the two nested loops add to the accumulated set. *)
Lemma elem_of_outer_loop s (pats : list Pattern.t) (l : list string)
    (acc : gset Case.t) c :
  c ∈ foldl (λ case_set pat,
               foldl (Suite.match_step re_match s pat) case_set l) acc pats ↔
  c ∈ acc ∨ ∃ pat p, pat ∈ pats ∧ p ∈ l ∧
                     re_match (Pattern.pattern pat) p = true ∧
                     Suite.get_case s (Pattern.case_name pat) = Some c.
Proof.
  revert acc. induction pats as [|pat0 pats IH]; intros acc; simpl.
  - split; [by left|]. intros [?|(pat & p & Hp & _)]; [done|].
    by apply elem_of_nil in Hp.
  - rewrite IH, elem_of_inner_loop. split.
    + intros [[?|(p & ? & ? & ?)]|(pat & p & ? & ? & ? & ?)].
      * by left.
      * right. exists pat0, p. split_and!; [left|done..].
      * right. exists pat, p. split_and!; [by right|done..].
    + intros [?|(pat & p & [->|?]%elem_of_cons & ? & ? & ?)].
      * by left; left.
      * left; right. by exists p.
      * right. by exists pat, p.
Qed.

Lemma match_case_set_empty s :
  Suite.match_case_set re_match s ∅ = list_to_set (Suite.cases s).
Proof.
  unfold Suite.match_case_set. rewrite bool_decide_eq_false_2; [done|].
  by intros Hne.
Qed.

Lemma elem_of_match_case_set s paths c :
  paths ≠ ∅ →
  c ∈ Suite.match_case_set re_match s paths ↔
  ∃ pat p, pat ∈ Suite.patterns s ∧ p ∈ paths ∧
           re_match (Pattern.pattern pat) p = true ∧
           Suite.get_case s (Pattern.case_name pat) = Some c.
Proof.
  intros Hne. unfold Suite.match_case_set.
  rewrite bool_decide_eq_true_2 by done.
  rewrite elem_of_outer_loop. split.
  - intros [?|(pat & p & ? & Hp & ? & ?)]; [done|].
    exists pat, p. by rewrite <- elem_of_elements.
  - intros (pat & p & ? & Hp & ? & ?). right. exists pat, p.
    by rewrite elem_of_elements.
Qed.

Lemma elem_of_base_loop (ss : list Suite.t) paths (acc : gset Case.t) c :
  c ∈ foldl (λ case_set suite,
               case_set ∪ Suite.match_case_set re_match suite paths)
            acc ss ↔
  c ∈ acc ∨ ∃ s, s ∈ ss ∧ c ∈ Suite.match_case_set re_match s paths.
Proof.
  revert acc. induction ss as [|s0 ss IH]; intros acc; simpl.
  - split; [by left|]. intros [?|(s & Hs & _)]; [done|].
    by apply elem_of_nil in Hs.
  - rewrite IH, elem_of_union. split.
    + intros [[?|?]|(s & ? & ?)]; [by left| |].
      * right. exists s0. split; [left|done].
      * right. exists s. split; [by right|done].
    + intros [?|(s & [->|?]%elem_of_cons & ?)];
        [by left; left|by left; right|]. right. by exists s.
Qed.

End SelectionFacts.


(* ===================================================================== *)
(** * Properties of dicts and of the binder's assignment loops *)
(* ===================================================================== *)

Section DictFacts.

Context {A : Type}.
Implicit Types (d : list (string * A)) (k : string) (v : A).

Lemma dict_get_set_eq d k v : dict_get (dict_set d k v) k = Some v.
Proof.
  induction d as [|[k' v'] d IH]; simpl.
  - by rewrite decide_True.
  - destruct (decide (k' = k)) as [->|Hne]; simpl.
    + by rewrite decide_True.
    + by rewrite decide_False.
Qed.

Lemma dict_get_set_ne d k k' v :
  k ≠ k' → dict_get (dict_set d k v) k' = dict_get d k'.
Proof.
  intros Hne. induction d as [|[k0 v0] d IH]; simpl.
  - by rewrite decide_False.
  - destruct (decide (k0 = k)) as [->|Hne0]; simpl.
    + by rewrite !decide_False.
    + destruct (decide (k0 = k')); [done|]. apply IH.
Qed.

Lemma dict_get_cons_eq d k v : dict_get ((k, v) :: d) k = Some v.
Proof. simpl. by rewrite decide_True. Qed.

Lemma dict_get_cons_ne d k k' v :
  k' ≠ k → dict_get ((k', v) :: d) k = dict_get d k.
Proof. intros Hne. simpl. by rewrite decide_False. Qed.

Lemma str_format_last_field (m : string) :
  str_format "{}" [m] = m.
Proof.
  change (m +:+ "" = m). induction m as [|c m IH]; [done|].
  change (String c (m +:+ "") = String c m). by f_equal.
Qed.

Lemma str_format_resolved_invalid (m : string) :
  str_format ("Resolved data is invalid:" ++ newline ++ "{}")%string [m]
  = ("Resolved data is invalid:" ++ newline ++ m)%string.
Proof. rewrite <- (str_format_last_field m) at 2. reflexivity. Qed.

End DictFacts.

(** Lookups in a dict whose keys are written out. *)
Ltac dict_get_concrete :=
  repeat first [ rewrite dict_get_cons_eq
               | rewrite dict_get_cons_ne by done ].

Section BinderFacts.

Implicit Types (names : list string) (d : data) (self out : dict).

(** The attributes after the loop over the required keys. *)
Lemma assign_required_spec names d self out :
  Object.assign_required names d self = Ok out →
  (∀ n, n ∈ names →
        ∃ v, Object.subscript d n = Ok v ∧ dict_get out n = Some v) ∧
  (∀ k, k ∉ names → dict_get out k = dict_get self k).
Proof.
  revert self. induction names as [|n0 names IH]; intros self; simpl.
  - intros [= ->]. split; [|done]. intros n Hn. by apply elem_of_nil in Hn.
  - destruct (Object.subscript d n0) as [v0|e] eqn:Hsub; simpl; [|done].
    intros [Hin Hout]%IH. split.
    + intros n [->|Hn]%elem_of_cons; [|by apply Hin].
      destruct (decide (n0 ∈ names)) as [Hn0|Hn0]; [by apply Hin|].
      exists v0. split; [done|]. rewrite Hout by done.
      apply dict_get_set_eq.
    + intros k [Hk0 Hk]%not_elem_of_cons. rewrite Hout by done.
      by apply dict_get_set_ne.
Qed.

(** The attributes after the loop over the optional keys. *)
Lemma assign_optional_spec names d self out :
  Object.assign_optional names d self = Ok out →
  (∀ n, n ∈ names →
        ∃ v, Object.get d n = Ok v ∧ dict_get out n = Some v) ∧
  (∀ k, k ∉ names → dict_get out k = dict_get self k).
Proof.
  revert self. induction names as [|n0 names IH]; intros self; simpl.
  - intros [= ->]. split; [|done]. intros n Hn. by apply elem_of_nil in Hn.
  - destruct (Object.get d n0) as [v0|e] eqn:Hget; simpl; [|done].
    intros [Hin Hout]%IH. split.
    + intros n [->|Hn]%elem_of_cons; [|by apply Hin].
      destruct (decide (n0 ∈ names)) as [Hn0|Hn0]; [by apply Hin|].
      exists v0. split; [done|]. rewrite Hout by done.
      apply dict_get_set_eq.
    + intros k [Hk0 Hk]%not_elem_of_cons. rewrite Hout by done.
      by apply dict_get_set_ne.
Qed.

(** Both loops run to their end on a dict that has the required keys. *)
Lemma assign_required_total names items self :
  (∀ n, n ∈ names → is_Some (dict_get items n)) →
  ∃ out, Object.assign_required names (DDict items) self = Ok out.
Proof.
  revert self. induction names as [|n0 names IH]; intros self Hall; simpl.
  - by eexists.
  - destruct (Hall n0) as [v Hv]; [left|]. rewrite Hv. simpl.
    apply IH. intros n Hn. apply Hall. by right.
Qed.

Lemma assign_optional_total names items self :
  ∃ out, Object.assign_optional names (DDict items) self = Ok out.
Proof.
  revert self. induction names as [|n0 names IH]; intros self; simpl.
  - by eexists.
  - apply IH.
Qed.

End BinderFacts.

(* ===================================================================== *)
(** * Properties of [convert] *)
(* ===================================================================== *)

Section ConvertFacts.

Implicit Types (σ : store) (items suites : dict).

Lemma alloc_fresh σ v : (alloc σ v).1 ∉ dom σ.
Proof. unfold alloc. simpl. apply is_fresh. Qed.

(** On a dict whose [suites] value is a dict, [convert] returns a new
    dict object and writes to that object only. *)
Lemma convert_dict σ old_data items suites :
  σ !! old_data = Some (DDict items) →
  dict_get items "suites" = Some (DDict suites) →
  let data := fresh (dom σ) in
  convert old_data σ =
    Ok (data,
        <[data := DDict (dict_set items "suites"
                                  (DList (dict_values suites)))]> σ).
Proof.
  intros Hold Hsuites data. unfold convert, copy. rewrite Hold. simpl.
  fold data. unfold getitem. rewrite lookup_insert_eq. simpl.
  rewrite Hsuites. simpl. unfold setitem. rewrite lookup_insert_eq.
  simpl. by rewrite insert_insert_eq.
Qed.

Lemma convert_value_dict items suites :
  dict_get items "suites" = Some (DDict suites) →
  convert_value (DDict items) =
    Ok (DDict (dict_set items "suites" (DList (dict_values suites)))).
Proof.
  intros Hsuites. unfold convert_value.
  rewrite (convert_dict _ _ items suites);
    [|apply lookup_singleton_eq|done].
  simpl. by rewrite lookup_insert_eq.
Qed.

Lemma dict_keys_set_present {A} (d : list (string * A)) k v :
  is_Some (dict_get d k) → dict_keys (dict_set d k v) = dict_keys d.
Proof.
  unfold dict_keys. induction d as [|[k0 v0] d IH]; simpl.
  - by intros [? ?].
  - destruct (decide (k0 = k)) as [->|Hne]; [done|].
    intros H. change (k0 :: (dict_set d k v).*1 = k0 :: d.*1).
    f_equal. by apply IH.
Qed.

End ConvertFacts.

(* ===================================================================== *)
(** * Properties of the schema engine *)
(* ===================================================================== *)

Section LoopFacts.

Implicit Types (f g : data → result data) (items : dict).

Lemma resolve_all_ext f g (l : list data) :
  (∀ x, x ∈ l → f x = g x) →
  Schema.resolve_all f l = Schema.resolve_all g l.
Proof.
  induction l as [|x l IH]; intros Hfg; simpl; [done|].
  rewrite (Hfg x) by left. rewrite IH; [done|].
  intros y Hy. apply Hfg. by right.
Qed.

Lemma resolve_values_ext f g items :
  (∀ x, x ∈ dict_values items → f x = g x) →
  Schema.resolve_values f items = Schema.resolve_values g items.
Proof.
  induction items as [|[k x] items IH]; intros Hfg; simpl; [done|].
  rewrite (Hfg x) by left. rewrite IH; [done|].
  intros y Hy. apply Hfg. by right.
Qed.

Lemma resolve_required_ext {N} (f g : N → data → result data) items
    (fields : list (string * N)) :
  Forall (λ field, ∀ v, f field.2 v = g field.2 v) fields →
  Schema.resolve_required f items fields =
  Schema.resolve_required g items fields.
Proof.
  induction 1 as [|[name sub] fields Hsub _ IH]; simpl; [done|].
  destruct (dict_get items name); [|done]. simpl in Hsub.
  by rewrite Hsub, IH.
Qed.

Lemma resolve_optional_ext {N} (f g : N → data → result data) items
    (fields : list (string * N)) :
  Forall (λ field, ∀ v, f field.2 v = g field.2 v) fields →
  Schema.resolve_optional f items fields =
  Schema.resolve_optional g items fields.
Proof.
  induction 1 as [|[name sub] fields Hsub _ IH]; simpl; [done|].
  destruct (dict_get items name); [|done]. simpl in Hsub.
  by rewrite Hsub, IH.
Qed.

Lemma try_priors_ext {N} (p p' : N → result data) f g original
    (priors : list ((data → result data) * N)) :
  Forall (λ prior, p prior.2 = p' prior.2) priors →
  (∀ x, f x = g x) →
  Schema.try_priors p f original priors =
  Schema.try_priors p' g original priors.
Proof.
  intros Hp Hfg.
  induction Hp as [|[migrate prior] priors Hprior _ IH]; simpl; [done|].
  simpl in Hprior. rewrite Hprior, IH.
  destruct (p' prior) as [d|e]; [|done].
  destruct (migrate d) as [m|e]; [|done]. simpl. by rewrite Hfg.
Qed.

(** The binder reads its schema through [resolve] at the raw data and
    through [recognize]. *)
Lemma object_init_ext type_name (s s' : Object.Schema) raw :
  Object.resolve s raw = Object.resolve s' raw →
  Object.recognize s = Object.recognize s' →
  Object.init type_name s raw = Object.init type_name s' raw.
Proof. intros Hres Hrec. unfold Object.init. by rewrite Hres, Hrec. Qed.

(** Resolving the values of a dict resolves the list of its values and
    keeps the keys. *)
Lemma resolve_values_of_all f items (l : list data) :
  Schema.resolve_all f (dict_values items) = Ok l →
  ∃ items', Schema.resolve_values f items = Ok items' ∧
            dict_values items' = l ∧ dict_keys items' = dict_keys items.
Proof.
  revert l. induction items as [|[k x] items IH]; intros l; simpl.
  - intros [= <-]. by exists [].
  - destruct (f x) as [x'|e]; [|done]. simpl.
    destruct (Schema.resolve_all f (dict_values items)) as [l'|e] eqn:Hl;
      [|done].
    simpl. intros [= <-]. destruct (IH l' eq_refl) as (items' & -> & <- & Hk).
    simpl. exists ((k, x') :: items'). split_and!; [done..|].
    unfold dict_keys in *. by rewrite !fmap_cons, Hk.
Qed.

(** A list of values that resolve to themselves. *)
Lemma resolve_all_fixed f (l : list data) :
  Forall (λ x, f x = Ok x) l → Schema.resolve_all f l = Ok l.
Proof.
  induction 1 as [|x l Hx _ IH]; simpl; [done|]. by rewrite Hx, IH.
Qed.

(** Values whose resolved form resolves to itself. *)
Lemma resolve_values_fixed f g items items' :
  (∀ x x', f x = Ok x' → g x' = Ok x') →
  Schema.resolve_values f items = Ok items' →
  Schema.resolve_values g items' = Ok items'.
Proof.
  intros Hfg. revert items'.
  induction items as [|[k x] items IH]; intros items'; simpl.
  - by intros [= <-].
  - destruct (f x) as [x'|e] eqn:Hx; [|done]. simpl.
    destruct (Schema.resolve_values f items) as [l|e]; [|done].
    simpl. intros [= <-]. simpl.
    by rewrite (Hfg x x' Hx), (IH l eq_refl).
Qed.

(** The elements of a list resolve one by one. *)
Lemma resolve_all_Ok f (l l' : list data) :
  Schema.resolve_all f l = Ok l' ↔ Forall2 (λ x x', f x = Ok x') l l'.
Proof.
  revert l'. induction l as [|x l IH]; intros l'; simpl.
  - split; [intros [= <-]; constructor|]. by intros ->%Forall2_nil_inv_l.
  - split.
    + destruct (f x) as [x'|e] eqn:Hx; [|done]. simpl.
      destruct (Schema.resolve_all f l) as [l0|e]; [|done]. simpl.
      intros [= <-]. constructor; [done|]. by apply IH.
    + intros (x' & l0 & Hx & Hl & ->)%Forall2_cons_inv_l.
      apply IH in Hl. by rewrite Hx, Hl.
Qed.

(** Resolving a list in another order gives the results in that
    order. *)
Lemma resolve_all_Permutation f (l1 l2 l1' : list data) :
  l1 ≡ₚ l2 → Schema.resolve_all f l1 = Ok l1' →
  ∃ l2', Schema.resolve_all f l2 = Ok l2' ∧ l1' ≡ₚ l2'.
Proof.
  intros Hperm. revert l1'.
  induction Hperm as [|x l1 l2 _ IH|x y l|l1 l2 l3 _ IH12 _ IH23];
    intros l1'.
  - intros [= <-]. by exists [].
  - intros (x' & l0 & Hx & Hl & ->)%resolve_all_Ok%Forall2_cons_inv_l.
    apply resolve_all_Ok, IH in Hl as (l2' & Hl2 & Hp).
    exists (x' :: l2'). simpl. rewrite Hx, Hl2. split; [done|].
    by constructor.
  - intros (y' & l0 & Hy & (x' & l' & Hx & Hl & ->)%Forall2_cons_inv_l
            & ->)%resolve_all_Ok%Forall2_cons_inv_l.
    apply resolve_all_Ok in Hl. exists (x' :: y' :: l'). simpl.
    rewrite Hx, Hy, Hl. split; [done|]. constructor.
  - intros (l2' & Hl2 & Hp12)%IH12. apply IH23 in Hl2 as (l3' & Hl3 & Hp23).
    exists l3'. split; [done|]. by etrans.
Qed.

Lemma check_all_Ok (f : data → result ()) (l : list data) :
  Forall (λ x, f x = Ok ()) l → Schema.check_all f l = Ok ().
Proof.
  induction 1 as [|x l Hx _ IH]; simpl; [done|]. by rewrite Hx.
Qed.

Lemma resolve_all_Forall f (P : data → Prop) (l l' : list data) :
  (∀ x x', f x = Ok x' → P x') →
  Schema.resolve_all f l = Ok l' → Forall P l'.
Proof.
  intros Hf. revert l'. induction l as [|x l IH]; intros l'; simpl.
  - intros [= <-]. constructor.
  - destruct (f x) as [x'|e] eqn:Hx; [|done]. simpl.
    destruct (Schema.resolve_all f l) as [l0|e]; [|done]. simpl.
    intros [= <-]. constructor; [by eapply Hf|by apply IH].
Qed.

End LoopFacts.

Section ResolveEquations.

Context (fs : gmap string data).
Context (path_join : string → string → string).
Context (dirname : string → string).
Context (re_compiles : string → bool).

Local Abbreviation R := (Schema.resolve fs path_join dirname re_compiles).

(** One step of [resolve] at each wrapper node. *)
Lemma resolve_TypedFile scoped inner scope raw :
  R (Schema.TypedFile scoped inner) scope raw =
  match raw with
  | DStr path =>
      let file := Schema.locate path_join scope path in
      match fs !! file with
      | Some document =>
          R inner (if scoped then Some (dirname file) else scope) document
      | None => Schema.invalid "no such file"
      end
  | _ => R inner scope raw
  end.
Proof. reflexivity. Qed.

Lemma resolve_ClassWrapper target_type inner scope raw :
  R (Schema.ClassWrapper target_type inner) scope raw =
  match raw with
  | DObj class_name _ =>
      if decide (class_name = target_type) then Ok raw
      else Schema.invalid "instance of another class"
  | _ =>
      attrs ← Object.init target_type (Schema.as_schema fs path_join
                dirname re_compiles inner scope) raw;
      Ok (DObj target_type attrs)
  end.
Proof. reflexivity. Qed.

Lemma resolve_Ancestry current priors scope raw :
  R (Schema.Ancestry current priors) scope raw =
  match R current scope raw with
  | Ok d => Ok d
  | Raise original =>
      if is_Invalid original then
        Schema.try_priors (λ prior, R prior scope raw) (R current scope)
                          original priors
      else Raise original
  end.
Proof. reflexivity. Qed.

Lemma resolve_Struct required optional strict scope items :
  R (Schema.Struct required optional strict) scope (DDict items) =
  if strict && bool_decide
                 (Schema.unknown_keys required optional items ≠ [])
  then Schema.invalid "unknown key"
  else
    r ← Schema.resolve_required (λ sub, R sub scope) items required;
    o ← Schema.resolve_optional (λ sub, R sub scope) items optional;
    Ok (DDict (r ++ o)).
Proof. reflexivity. Qed.

Lemma resolve_List element scope (l : list data) :
  R (Schema.List element) scope (DList l) =
  l' ← Schema.resolve_all (R element scope) l; Ok (DList l').
Proof. reflexivity. Qed.

Lemma resolve_Dict value scope (items : dict) :
  R (Schema.Dict value) scope (DDict items) =
  items' ← Schema.resolve_values (R value scope) items; Ok (DDict items').
Proof. reflexivity. Qed.

Lemma resolve_required_cons {N} (f : N → data → result data) (items : dict)
    name sub (rest : list (string * N)) :
  Schema.resolve_required f items ((name, sub) :: rest) =
  match dict_get items name with
  | Some v =>
      v' ← f sub v;
      rest' ← Schema.resolve_required f items rest;
      Ok ((name, v') :: rest')
  | None => Schema.invalid "missing required field"
  end.
Proof. reflexivity. Qed.

(** The same steps for [validate]. *)
Lemma validate_Struct required optional strict (items : dict) :
  Schema.validate (Schema.Struct required optional strict) (DDict items) =
  if strict && bool_decide
                 (Schema.unknown_keys required optional items ≠ [])
  then Schema.invalid "unknown key"
  else
    _ ← Schema.check_required Schema.validate items required;
    Schema.check_optional Schema.validate items optional.
Proof. reflexivity. Qed.

Lemma check_required_cons {N} (f : N → data → result ()) (items : dict)
    name sub (rest : list (string * N)) :
  Schema.check_required f items ((name, sub) :: rest) =
  match dict_get items name with
  | Some v => _ ← f sub v; Schema.check_required f items rest
  | None => Schema.invalid "missing required field"
  end.
Proof. reflexivity. Qed.

Lemma resolve_values_Forall (f : data → result data) (P : data → Prop)
    (items items' : dict) :
  (∀ x x', f x = Ok x' → P x') →
  Schema.resolve_values f items = Ok items' →
  Forall P (dict_values items').
Proof.
  intros Hf. revert items'.
  induction items as [|[k x] items IH]; intros items'; simpl.
  - intros [= <-]. constructor.
  - destruct (f x) as [x'|e] eqn:Hx; [|done]. simpl.
    destruct (Schema.resolve_values f items) as [l|e]; [|done]. simpl.
    intros [= <-]. constructor; [by eapply Hf|by apply IH].
Qed.

End ResolveEquations.

Section FileFree.

(** Induction on schema nodes, through the lists of fields and of prior
    schemas. *)
Lemma node_induction (P : Schema.node → Prop) :
  (∀ k, P (Schema.Scalar k)) →
  (∀ required optional strict,
     Forall (λ field, P field.2) required →
     Forall (λ field, P field.2) optional →
     P (Schema.Struct required optional strict)) →
  (∀ element, P element → P (Schema.List element)) →
  (∀ value, P value → P (Schema.Dict value)) →
  (∀ scoped inner, P inner → P (Schema.TypedFile scoped inner)) →
  (∀ target_type inner, P inner →
                        P (Schema.ClassWrapper target_type inner)) →
  (∀ current priors,
     P current → Forall (λ prior, P prior.2) priors →
     P (Schema.Ancestry current priors)) →
  ∀ n, P n.
Proof.
  intros HScalar HStruct HList HDict HFile HClass HAncestry.
  fix IH 1. intros [k|required optional strict|element|value|scoped inner
                    |target_type inner|current priors].
  - apply HScalar.
  - apply HStruct.
    + induction required as [|[name sub] rest IHrest]; constructor;
        [apply IH|apply IHrest].
    + induction optional as [|[name sub] rest IHrest]; constructor;
        [apply IH|apply IHrest].
  - apply HList, IH.
  - apply HDict, IH.
  - apply HFile, IH.
  - apply HClass, IH.
  - apply HAncestry; [apply IH|].
    induction priors as [|[migrate prior] rest IHrest]; constructor;
      [apply IH|apply IHrest].
Qed.

Context (fs fs' : gmap string data).
Context (path_join : string → string → string).
Context (dirname : string → string).
Context (re_compiles : string → bool).

Lemma forallb_Forall_snd {N} (P : Schema.node → Prop)
    (l : list (N * Schema.node)) :
  forallb (λ x, Schema.file_free x.2) l = true →
  Forall (λ x, Schema.file_free x.2 = true → P x.2) l →
  Forall (λ x, P x.2) l.
Proof.
  intros Hall HP. induction HP as [|x l Hx _ IH]; [constructor|].
  simpl in Hall. apply andb_true_iff in Hall as [Hx' Hl].
  constructor; [by apply Hx|by apply IH].
Qed.

Local Abbreviation same_resolve := (λ n : Schema.node,
  ∀ scope raw,
    Schema.resolve fs path_join dirname re_compiles n scope raw =
    Schema.resolve fs' path_join dirname re_compiles n scope raw).

(** Under a node that loads no file, [resolve] does not depend on the
    files. *)
Lemma resolve_file_free n :
  Schema.file_free n = true → same_resolve n.
Proof.
  induction n as [k|required optional strict IHreq IHopt|element IH
                  |value IH|scoped inner IH|target_type inner IH
                  |current priors IHcur IHpriors] using node_induction;
    simpl; intros Hfree scope raw.
  - done.
  - apply andb_true_iff in Hfree as [Hreq Hopt].
    destruct raw; try done.
    destruct (strict && _); [done|].
    rewrite (resolve_required_ext
               (λ sub, Schema.resolve fs path_join dirname re_compiles
                                      sub scope)
               (λ sub, Schema.resolve fs' path_join dirname re_compiles
                                      sub scope)).
    2:{ eapply Forall_impl;
          [apply (forallb_Forall_snd same_resolve _ Hreq IHreq)|].
        intros [name sub] H v. apply H. }
    rewrite (resolve_optional_ext
               (λ sub, Schema.resolve fs path_join dirname re_compiles
                                      sub scope)
               (λ sub, Schema.resolve fs' path_join dirname re_compiles
                                      sub scope)).
    2:{ eapply Forall_impl;
          [apply (forallb_Forall_snd same_resolve _ Hopt IHopt)|].
        intros [name sub] H v. apply H. }
    done.
  - destruct raw; try done.
    rewrite (resolve_all_ext _
               (Schema.resolve fs' path_join dirname re_compiles
                               element scope)); [done|].
    intros x _. by apply IH.
  - destruct raw; try done.
    rewrite (resolve_values_ext _
               (Schema.resolve fs' path_join dirname re_compiles
                               value scope)); [done|].
    intros x _. by apply IH.
  - done.
  - destruct raw; try done;
      (erewrite object_init_ext; [done|simpl; by apply IH|done]).
  - apply andb_true_iff in Hfree as [Hcur Hpriors].
    rewrite (IHcur Hcur).
    destruct (Schema.resolve fs' _ _ _ current scope raw) as [d|e];
      [done|].
    destruct (is_Invalid e); [|done].
    apply try_priors_ext.
    + eapply Forall_impl;
        [apply (forallb_Forall_snd same_resolve _ Hpriors IHpriors)|].
      intros [migrate prior] H. apply H.
    + intros x. by apply IHcur.
Qed.

End FileFree.

(* ===================================================================== *)
(** * Properties of the index document schemas *)
(* ===================================================================== *)

Section IndexFacts.

Context (fs fs' : gmap string data).
Context (path_join : string → string → string).
Context (dirname : string → string).
Context (re_compiles : string → bool).

Local Abbreviation R := (Schema.resolve fs path_join dirname re_compiles).
Local Abbreviation R' :=
  (Schema.resolve fs' path_join dirname re_compiles).

Implicit Types (scope : option string) (items suites : dict).

(** A resolved [schema] field resolves to itself. *)
Lemma version_struct_fixed scope scope' raw d :
  R' Base.version_struct scope raw = Ok d →
  R Base.version_struct scope' d = Ok d.
Proof.
  unfold Base.version_struct, Schema.StrictStruct. cbn.
  destruct raw as [| | | | |l|items|c a]; try done.
  case_bool_decide; [done|].
  destruct (dict_get items "version") as [[| |z| | | | |]|]; try done.
  cbn. by intros [= <-].
Qed.

(** A resolved [trees] field resolves to itself. *)
Lemma trees_dict_fixed scope scope' raw d :
  R' Base.trees_dict scope raw = Ok d →
  R Base.trees_dict scope' d = Ok d.
Proof.
  unfold Base.trees_dict. simpl.
  destruct raw as [| | | | |l|items|c a]; try done.
  destruct (Schema.resolve_values _ items) as [l|e] eqn:Hl; [|done].
  simpl. intros [= <-]. simpl.
  erewrite resolve_values_fixed; [done| |exact Hl].
  intros [] x'; try done. by intros [= <-].
Qed.

(** A suite file resolves to an instance of [Suite], and an instance of
    [Suite] resolves to itself. *)
Lemma suite_file_instance scope raw d :
  R' Base.suite_file scope raw = Ok d → ∃ attrs, d = DObj "Suite" attrs.
Proof.
  assert (Hclass : ∀ scope0 raw0,
    R' (Schema.ClassWrapper "Suite" Suite.schema) scope0 raw0 = Ok d →
    ∃ attrs, d = DObj "Suite" attrs).
  { intros scope0 raw0. rewrite resolve_ClassWrapper.
    destruct raw0 as [| | | | | | |c a];
      try (destruct (Object.init _ _ _) as [attrs|e]; [|done];
           simpl; intros [= <-]; by eexists).
    case_decide as Hc; [|done]. subst c. intros [= <-]. by eexists. }
  unfold Base.suite_file. rewrite resolve_TypedFile.
  destruct raw as [| | |path| | | |c a]; try apply Hclass.
  cbv zeta. destruct (fs' !! _) as [document|]; [apply Hclass|done].
Qed.

Lemma suite_file_fixed scope attrs :
  R Base.suite_file scope (DObj "Suite" attrs) = Ok (DObj "Suite" attrs).
Proof. reflexivity. Qed.

(** A suite value resolves alike with two sets of files that agree on
    the file the value names. *)
Lemma suite_file_same_files scope raw :
  (∀ path, raw = DStr path →
           fs' !! Schema.locate path_join scope path =
           fs !! Schema.locate path_join scope path) →
  R' Base.suite_file scope raw = R Base.suite_file scope raw.
Proof.
  intros Hfile.
  assert (Hclass : ∀ scope0 raw0,
    R' (Schema.ClassWrapper "Suite" Suite.schema) scope0 raw0 =
    R (Schema.ClassWrapper "Suite" Suite.schema) scope0 raw0).
  { intros scope0 raw0. by apply resolve_file_free. }
  unfold Base.suite_file. rewrite !resolve_TypedFile.
  destruct raw as [| | |path| | | |c a]; try apply Hclass.
  cbv zeta. rewrite (Hfile path eq_refl).
  destruct (fs !! _) as [document|]; [apply Hclass|done].
Qed.

(** Resolved fields of the index document are valid. *)
Lemma version_struct_valid scope raw d :
  R' Base.version_struct scope raw = Ok d →
  Schema.validate Base.version_struct d = Ok ().
Proof.
  unfold Base.version_struct, Schema.StrictStruct. cbn.
  destruct raw as [| | | | |l|items|c a]; try done.
  case_bool_decide; [done|].
  destruct (dict_get items "version") as [[| |z| | | | |]|]; try done.
  cbn. by intros [= <-].
Qed.

Lemma trees_dict_valid scope raw d :
  R' Base.trees_dict scope raw = Ok d →
  Schema.validate Base.trees_dict d = Ok ().
Proof.
  unfold Base.trees_dict. simpl.
  destruct raw as [| | | | |l|items|c a]; try done.
  destruct (Schema.resolve_values _ items) as [l|e] eqn:Hl; [|done].
  simpl. intros [= <-]. simpl. apply check_all_Ok.
  eapply resolve_values_Forall; [|exact Hl].
  intros [] x'; try done. by intros [= <-].
Qed.

Lemma suite_file_valid attrs :
  Schema.validate Base.suite_file (DObj "Suite" attrs) = Ok ().
Proof. reflexivity. Qed.

Local Abbreviation index_ancestry :=
  (Schema.Ancestry Base.current_index
                   [(convert_value, Base.legacy_index)]).

(** Lookups in a dict whose keys are written out. *)
Ltac dict_lookup :=
  repeat first [ rewrite dict_get_cons_eq
               | rewrite dict_get_cons_ne by done ].

(** One step of the loop over the required fields of a struct. *)
Ltac required_step :=
  rewrite ?resolve_required_cons; cbn [Schema.resolve_required].

(** The legacy shape does not accept a list of suites. *)
Lemma legacy_index_rejects_list scope items (l : list data) :
  dict_get items "suites" = Some (DList l) →
  ∃ e, R' Base.legacy_index scope (DDict items) = Raise e.
Proof.
  intros Hsuites. unfold Base.legacy_index, Schema.StrictStruct.
  rewrite resolve_Struct. destruct (true && _); [by eexists|].
  required_step.
  destruct (dict_get items "schema") as [sv|]; [|by eexists].
  destruct (Schema.resolve _ _ _ _ Base.version_struct scope sv);
    [|by eexists].
  rewrite Hsuites. by eexists.
Qed.

(** The current shape resolves a resolved index document to itself. *)
Lemma current_index_fixed scope scope' sv rs vs ss tv rt :
  R' Base.version_struct scope sv = Ok rs →
  Schema.resolve_all (R' Base.suite_file scope) vs = Ok ss →
  R' Base.trees_dict scope tv = Ok rt →
  R Base.current_index scope'
    (DDict [("schema", rs); ("suites", DList ss); ("trees", rt)]) =
  Ok (DDict [("schema", rs); ("suites", DList ss); ("trees", rt)]).
Proof.
  intros Hrs Hss Hrt. unfold Base.current_index, Schema.StrictStruct.
  rewrite resolve_Struct.
  rewrite bool_decide_eq_false_2 by (intros H; by apply H).
  cbn [andb]. required_step. dict_lookup.
  rewrite (version_struct_fixed scope scope' sv rs Hrs).
  rewrite (trees_dict_fixed scope scope' tv rt Hrt).
  rewrite resolve_List, resolve_all_fixed; [done|].
  eapply Forall_impl.
  - eapply (resolve_all_Forall _ (λ s, ∃ attrs, s = DObj "Suite" attrs));
      [|exact Hss].
    intros x x'. apply suite_file_instance.
  - intros s [attrs ->]. apply suite_file_fixed.
Qed.

(** What the current shape accepts, and what it resolves it to. *)
Lemma current_index_Ok scope items d :
  R' Base.current_index scope (DDict items) = Ok d ↔
  Schema.unknown_keys
    [("schema", Base.version_struct);
     ("suites", Schema.List Base.suite_file);
     ("trees", Base.trees_dict)] [] items = [] ∧
  ∃ sv rs vs ss tv rt,
    dict_get items "schema" = Some sv ∧
    R' Base.version_struct scope sv = Ok rs ∧
    dict_get items "suites" = Some (DList vs) ∧
    Schema.resolve_all (R' Base.suite_file scope) vs = Ok ss ∧
    dict_get items "trees" = Some tv ∧
    R' Base.trees_dict scope tv = Ok rt ∧
    d = DDict [("schema", rs); ("suites", DList ss); ("trees", rt)].
Proof.
  unfold Base.current_index, Schema.StrictStruct.
  rewrite resolve_Struct. cbn [andb]. required_step. split.
  - case_bool_decide as Hunknown; [done|].
    destruct (dict_get items "schema") as [sv|] eqn:Hsv; [|done].
    destruct (R' Base.version_struct scope sv) as [rs|e] eqn:Hrs; [|done].
    destruct (dict_get items "suites") as [[| | | | |vs| |]|] eqn:Hvs;
      try done.
    rewrite resolve_List.
    destruct (Schema.resolve_all (R' Base.suite_file scope) vs)
      as [ss|e] eqn:Hss; [|done].
    destruct (dict_get items "trees") as [tv|] eqn:Htv; [|done].
    destruct (R' Base.trees_dict scope tv) as [rt|e] eqn:Hrt; [|done].
    cbn [mbind result_bind app Schema.resolve_optional]. intros [= <-].
    split; [by destruct (decide (Schema.unknown_keys
              [("schema", Base.version_struct);
               ("suites", Schema.List Base.suite_file);
               ("trees", Base.trees_dict)] [] items = []))|].
    by exists sv, rs, vs, ss, tv, rt.
  - intros (Hunknown & sv & rs & vs & ss & tv & rt
            & -> & -> & -> & Hss & -> & -> & ->).
    rewrite bool_decide_eq_false_2 by (by intros H).
    by rewrite resolve_List, Hss.
Qed.

(** A resolved index document is valid. *)
Lemma current_index_valid scope sv rs vs ss tv rt :
  R' Base.version_struct scope sv = Ok rs →
  Schema.resolve_all (R' Base.suite_file scope) vs = Ok ss →
  R' Base.trees_dict scope tv = Ok rt →
  Schema.validate Base.current_index
    (DDict [("schema", rs); ("suites", DList ss); ("trees", rt)]) = Ok ().
Proof.
  intros Hrs Hss Hrt. unfold Base.current_index, Schema.StrictStruct.
  rewrite validate_Struct.
  rewrite bool_decide_eq_false_2 by (intros H; by apply H).
  cbn [andb]. rewrite ?check_required_cons. dict_lookup.
  rewrite (version_struct_valid scope sv rs Hrs).
  rewrite (trees_dict_valid scope tv rt Hrt).
  cbn [mbind result_bind Schema.check_required Schema.check_optional].
  change (Schema.validate (Schema.List Base.suite_file) (DList ss))
    with (Schema.check_all (Schema.validate Base.suite_file) ss).
  rewrite check_all_Ok; [done|].
  eapply Forall_impl.
  - eapply (resolve_all_Forall _ (λ s, ∃ attrs, s = DObj "Suite" attrs));
      [|exact Hss].
    intros x x'. apply suite_file_instance.
  - intros s [attrs ->]. apply suite_file_valid.
Qed.

(** On a document whose suites are a list, the ancestry succeeds only
    through the current shape. *)
Lemma index_ancestry_current scope items (l : list data) d :
  dict_get items "suites" = Some (DList l) →
  R' index_ancestry scope (DDict items) = Ok d →
  R' Base.current_index scope (DDict items) = Ok d.
Proof.
  intros Hsuites. rewrite resolve_Ancestry.
  destruct (R' Base.current_index scope (DDict items)) as [d0|e0];
    [done|].
  destruct (is_Invalid e0); [|done]. cbn [Schema.try_priors].
  destruct (legacy_index_rejects_list scope items _ Hsuites) as [e ->].
  by destruct (is_Invalid e).
Qed.

Local Abbreviation init := (Base.init fs path_join dirname re_compiles).

(** [Base.__init__] on an index document the ancestry resolves. *)
Lemma base_init_resolved dir_path document rs ss rt :
  let d := DDict [("schema", rs); ("suites", DList ss); ("trees", rt)] in
  fs !! Base.index_path dir_path = Some document →
  R index_ancestry (Some (dirname (Base.index_path dir_path))) document
    = Ok d →
  Schema.validate Base.current_index d = Ok () →
  init dir_path =
    Ok [("schema", rs); ("suites", DList ss); ("trees", rt);
        ("dir_path", DStr dir_path)].
Proof.
  intros d Hfile Hres Hvalid. unfold Base.init, Base.is_dir_valid.
  rewrite bool_decide_eq_true_2 by (rewrite Hfile; eauto).
  unfold Object.init. cbn [Object.resolve Schema.as_schema].
  unfold Base.index_schema. rewrite resolve_TypedFile. cbv zeta.
  cbn [Schema.locate]. rewrite Hfile, Hres.
  change (Object.recognize _)
    with (Some {| Object.required := ["schema"; "suites"; "trees"];
                  Object.optional := [];
                  Object.validate :=
                    Schema.validate Base.current_index |}).
  cbn [Object.validate Object.required Object.optional].
  rewrite Hvalid. reflexivity.
Qed.

(** What [Base.__init__] has done when it returns. *)
Lemma base_init_Ok_inv dir_path self :
  init dir_path = Ok self →
  ∃ document d,
    fs !! Base.index_path dir_path = Some document ∧
    R index_ancestry (Some (dirname (Base.index_path dir_path))) document
      = Ok d ∧
    ∀ rs ss rt,
      d = DDict [("schema", rs); ("suites", DList ss); ("trees", rt)] →
      self = [("schema", rs); ("suites", DList ss); ("trees", rt);
              ("dir_path", DStr dir_path)].
Proof.
  unfold Base.init, Base.is_dir_valid. case_bool_decide as Hfile; [|done].
  destruct Hfile as [document Hfile].
  unfold Object.init. cbn [Object.resolve Schema.as_schema].
  unfold Base.index_schema. rewrite resolve_TypedFile. cbv zeta.
  cbn [Schema.locate]. rewrite Hfile.
  destruct (R index_ancestry _ document) as [d|e] eqn:Hres;
    [|by destruct (is_Invalid e)].
  change (Object.recognize _)
    with (Some {| Object.required := ["schema"; "suites"; "trees"];
                  Object.optional := [];
                  Object.validate :=
                    Schema.validate Base.current_index |}).
  cbn [Object.validate Object.required Object.optional].
  destruct (Schema.validate Base.current_index d) as [[]|e];
    [|by destruct (is_Invalid e)].
  intros Hself. exists document, d. split_and!; [done..|].
  intros rs ss rt ->. revert Hself. by intros [= <-].
Qed.

End IndexFacts.

(* ===================================================================== *)
(** * More properties of the selection loops *)
(* ===================================================================== *)

Section SelectionSizes.

Context (re_match : string → string → bool).

Implicit Types (s : Suite.t) (c : Case.t) (pat : Pattern.t)
  (paths : gset string).

Lemma size_list_to_set_le (l : list Case.t) :
  (size (list_to_set l : gset Case.t) ≤ length l)%nat.
Proof.
  induction l as [|c l IH]; [by rewrite list_to_set_nil, size_empty|].
  rewrite list_to_set_cons, size_union_alt, size_singleton. simpl.
  assert (size (list_to_set l ∖ {[c]} : gset Case.t)
          ≤ size (list_to_set l : gset Case.t))%nat
    by (apply subseteq_size, subseteq_difference_l; done).
  lia.
Qed.

(** One pattern adds at most one case, whatever the number of paths. *)
Lemma size_inner_loop s pat (l : list string) (acc : gset Case.t) :
  (size (foldl (Suite.match_step re_match s pat) acc l) ≤ S (size acc))%nat.
Proof.
  set (added := match Suite.get_case s (Pattern.case_name pat) with
                | Some c => {[ c ]}
                | None => ∅
                end : gset Case.t).
  assert (Hsub : foldl (Suite.match_step re_match s pat) acc l
                 ⊆ acc ∪ added).
  { intros c [?|(p & _ & _ & Hg)]%elem_of_inner_loop; [set_solver|].
    unfold added. rewrite Hg. set_solver. }
  apply subseteq_size in Hsub. rewrite size_union_alt in Hsub.
  assert (size (added ∖ acc) ≤ 1)%nat; [|lia].
  etrans; [apply (subseteq_size _ added), subseteq_difference_l; done|].
  unfold added. destruct (Suite.get_case _ _).
  - rewrite size_singleton. lia.
  - rewrite size_empty. lia.
Qed.

Lemma size_outer_loop s (pats : list Pattern.t) (l : list string)
    (acc : gset Case.t) :
  (size (foldl (λ case_set pat,
                  foldl (Suite.match_step re_match s pat) case_set l)
               acc pats)
   ≤ size acc + length pats)%nat.
Proof.
  revert acc. induction pats as [|pat pats IH]; intros acc; simpl; [lia|].
  etrans; [apply IH|]. pose proof (size_inner_loop s pat l acc). lia.
Qed.

Lemma match_case_set_subseteq_cases s paths :
  Suite.match_case_set re_match s paths ⊆ list_to_set (Suite.cases s).
Proof.
  destruct (decide (paths = ∅)) as [->|Hne];
    [by rewrite match_case_set_empty|].
  intros c (pat & p & _ & _ & _ & Hg)%elem_of_match_case_set; [|done].
  apply elem_of_list_to_set. by apply get_case_elem_of in Hg as [? _].
Qed.

Lemma with_patterns_get_case s ps n :
  Suite.get_case (Suite.with_patterns s ps) n = Suite.get_case s n.
Proof. reflexivity. Qed.

Lemma matches_true s paths :
  Suite.matches re_match s paths = true ↔
  ∃ c, c ∈ Suite.match_case_set re_match s paths.
Proof.
  unfold Suite.matches. rewrite bool_decide_eq_true. split.
  - intros Hne. by apply set_choose_L.
  - intros [c Hc] Heq. rewrite Heq in Hc. set_solver.
Qed.

(** The cases a database selects are those its matching suites select. *)
Lemma elem_of_base_match_case_set (db : Base.t) paths c :
  c ∈ Base.match_case_set re_match db paths ↔
  ∃ s, s ∈ Base.match_suite_set re_match db paths ∧
       c ∈ Suite.match_case_set re_match s paths.
Proof.
  unfold Base.match_case_set, Base.match_suite_set.
  rewrite elem_of_base_loop. split.
  - intros [H|(s & Hs & Hcs)]; [by apply not_elem_of_empty in H|].
    exists s. split; [|done].
    rewrite elem_of_list_to_set, list_elem_of_filter. split; [|done].
    apply matches_true. by exists c.
  - intros (s & Hs & Hcs). right. exists s. split; [|done].
    rewrite elem_of_list_to_set, list_elem_of_filter in Hs. tauto.
Qed.

End SelectionSizes.

(* ===================================================================== *)
(** * More properties of the binder's assignment loops *)
(* ===================================================================== *)

Section BinderLoops.

Implicit Types (names : list string) (d : data) (items self out : dict).

Lemma dict_keys_set_absent {A} (l : list (string * A)) k v :
  k ∉ dict_keys l → dict_keys (dict_set l k v) = dict_keys l ++ [k].
Proof.
  unfold dict_keys. induction l as [|[k0 v0] l IH]; simpl; [done|].
  intros [Hne Hl]%not_elem_of_cons. rewrite decide_False by done.
  rewrite fmap_cons. simpl. f_equal. by apply IH.
Qed.

(** The loops raise no [Invalid]. *)
Lemma assign_required_Raise names d self e :
  Object.assign_required names d self = Raise e → is_Invalid e = false.
Proof.
  revert self. induction names as [|n names IH]; intros self; simpl; [done|].
  destruct (Object.subscript d n) as [v|e0] eqn:Hsub; simpl; [apply IH|].
  intros [= <-]. destruct d; simpl in Hsub; try by simplify_eq.
  destruct (dict_get items n); by simplify_eq.
Qed.

Lemma assign_optional_Raise names d self e :
  Object.assign_optional names d self = Raise e → is_Invalid e = false.
Proof.
  revert self. induction names as [|n names IH]; intros self; simpl; [done|].
  destruct (Object.get d n) as [v|e0] eqn:Hget; simpl; [apply IH|].
  intros [= <-]. destruct d; simpl in Hget; by simplify_eq.
Qed.

(** On a dict that lacks a required key, the loop stops at the first such
    key with a [KeyError]. *)
Lemma assign_required_missing names items self :
  (∃ n, n ∈ names ∧ dict_get items n = None) →
  ∃ before n after,
    names = before ++ n :: after ∧
    (∀ k, k ∈ before → is_Some (dict_get items k)) ∧
    dict_get items n = None ∧
    Object.assign_required names (DDict items) self = Raise (KeyError n).
Proof.
  revert self. induction names as [|n0 names IH]; intros self.
  - intros (n & Hn & _). by apply elem_of_nil in Hn.
  - intros (n & Hn & Hmiss). simpl.
    destruct (dict_get items n0) as [v0|] eqn:Hn0; simpl.
    + destruct (IH (dict_set self n0 v0)) as (b & m & a & -> & Hb & Hm & ->).
      { apply elem_of_cons in Hn as [->|Hn]; [congruence|]. by exists n. }
      exists (n0 :: b), m, a. split_and!; [done| |done..].
      intros k [->|Hk]%elem_of_cons; [by rewrite Hn0|by apply Hb].
    + exists [], n0, names. split_and!; [done| |done..].
      intros k Hk. by apply elem_of_nil in Hk.
Qed.

(** The loops append the keys they meet for the first time, in order. *)
Lemma assign_required_keys names d self out :
  NoDup names → (∀ n, n ∈ names → n ∉ dict_keys self) →
  Object.assign_required names d self = Ok out →
  dict_keys out = dict_keys self ++ names.
Proof.
  revert self. induction names as [|n names IH]; intros self; simpl.
  - intros _ _ [= <-]. by rewrite app_nil_r.
  - intros [Hn Hnames]%NoDup_cons Hfresh.
    destruct (Object.subscript d n) as [v|e]; simpl; [|done].
    intros Hout. apply IH in Hout; [|done|].
    + rewrite Hout, dict_keys_set_absent by (apply Hfresh; left).
      by rewrite <- app_assoc.
    + intros k Hk. rewrite dict_keys_set_absent by (apply Hfresh; left).
      rewrite elem_of_app, list_elem_of_singleton.
      intros [?| ->]; [|done]. apply (Hfresh k); [by right|done].
Qed.

Lemma assign_optional_keys names d self out :
  NoDup names → (∀ n, n ∈ names → n ∉ dict_keys self) →
  Object.assign_optional names d self = Ok out →
  dict_keys out = dict_keys self ++ names.
Proof.
  revert self. induction names as [|n names IH]; intros self; simpl.
  - intros _ _ [= <-]. by rewrite app_nil_r.
  - intros [Hn Hnames]%NoDup_cons Hfresh.
    destruct (Object.get d n) as [v|e]; simpl; [|done].
    intros Hout. apply IH in Hout; [|done|].
    + rewrite Hout, dict_keys_set_absent by (apply Hfresh; left).
      by rewrite <- app_assoc.
    + intros k Hk. rewrite dict_keys_set_absent by (apply Hfresh; left).
      rewrite elem_of_app, list_elem_of_singleton.
      intros [?| ->]; [|done]. apply (Hfresh k); [by right|done].
Qed.

(** The loops read the resolved dict at the declared keys only. *)
Lemma assign_required_agree names items items' self :
  (∀ n, n ∈ names → dict_get items n = dict_get items' n) →
  Object.assign_required names (DDict items) self =
  Object.assign_required names (DDict items') self.
Proof.
  revert self. induction names as [|n names IH]; intros self Hagree; simpl;
    [done|].
  rewrite <- (Hagree n) by left.
  destruct (dict_get items n); simpl; [|done].
  apply IH. intros k Hk. apply Hagree. by right.
Qed.

Lemma assign_optional_agree names items items' self :
  (∀ n, n ∈ names → dict_get items n = dict_get items' n) →
  Object.assign_optional names (DDict items) self =
  Object.assign_optional names (DDict items') self.
Proof.
  revert self. induction names as [|n names IH]; intros self Hagree; simpl;
    [done|].
  rewrite <- (Hagree n) by left.
  apply IH. intros k Hk. apply Hagree. by right.
Qed.

End BinderLoops.

(* ===================================================================== *)
(** * [convert] on every kind of argument *)
(* ===================================================================== *)

Lemma convert_by_cases (σ : store) (old_data : positive) (d : data) :
  σ !! old_data = Some d →
  convert old_data σ =
    match d with
    | DDict items =>
        match dict_get items "suites" with
        | None => Raise (KeyError "suites")
        | Some (DDict suites) =>
            Ok (fresh (dom σ),
                <[fresh (dom σ) :=
                    DDict (dict_set items "suites"
                                    (DList (dict_values suites)))]> σ)
        | Some _ => Raise AttributeError
        end
    | DList _ => Raise TypeError
    | _ => Raise AttributeError
    end.
Proof.
  intros Hold.
  destruct d as [| | | | |l|items|c a];
    try (by unfold convert, copy; rewrite Hold).
  - unfold convert, copy. rewrite Hold. simpl. unfold getitem.
    by rewrite lookup_insert_eq.
  - destruct (dict_get items "suites") as [v|] eqn:Hsuites.
    + destruct v as [| | | | | |suites|]; [..|by apply convert_dict|];
        unfold convert, copy; rewrite Hold; simpl; unfold getitem;
        rewrite lookup_insert_eq; simpl; by rewrite Hsuites.
    + unfold convert, copy. rewrite Hold. simpl. unfold getitem.
      rewrite lookup_insert_eq. simpl. by rewrite Hsuites.
Qed.


(* ===================================================================== *)
(** * The legacy index document through the ancestry *)
(* ===================================================================== *)

Lemma unknown_keys_nil (required optional : list (string * Schema.node))
    (items : dict) :
  Schema.unknown_keys required optional items = [] ↔
  ∀ k, k ∈ dict_keys items → k ∈ dict_keys required ++ dict_keys optional.
Proof.
  unfold Schema.unknown_keys.
  induction (dict_keys items) as [|k0 ks IH].
  - split; [|done]. intros _ k Hk. by apply elem_of_nil in Hk.
  - rewrite filter_cons. case_decide as Hk0.
    + split; [done|]. intros Hall. exfalso. apply Hk0, Hall. left.
    + rewrite IH. split.
      * intros Hall k [->|Hk]%elem_of_cons; [done|by apply Hall].
      * intros Hall k Hk. apply Hall. by right.
Qed.

(** Resolving the values of a dict keeps the keys and resolves the list of
    the values. *)
Lemma resolve_values_Ok (f : data → result data) (items items' : dict) :
  Schema.resolve_values f items = Ok items' ↔
  dict_keys items' = dict_keys items ∧
  Schema.resolve_all f (dict_values items) = Ok (dict_values items').
Proof.
  revert items'. induction items as [|[k x] items IH]; intros items'.
  - cbn [Schema.resolve_values]. split.
    + by intros [= <-].
    + intros [Hk _]. by destruct items'.
  - change (dict_values ((k, x) :: items)) with (x :: dict_values items).
    change (dict_keys ((k, x) :: items)) with (k :: dict_keys items).
    cbn [Schema.resolve_values Schema.resolve_all].
    destruct (f x) as [y|e]; [|split; [done|by intros [_ ?]]].
    cbn [mbind result_bind].
    destruct (Schema.resolve_values f items) as [rest|e] eqn:Hrest.
    + destruct (proj1 (IH rest) eq_refl) as [Hk Hv]. rewrite Hv.
      cbn [mbind result_bind]. split.
      * intros [= <-]. split; [|done].
        change (dict_keys ((k, y) :: rest)) with (k :: dict_keys rest).
        by rewrite Hk.
      * intros [Hk' Hv']. destruct items' as [|[k' x'] items']; [done|].
        change (dict_keys ((k', x') :: items'))
          with (k' :: dict_keys items') in Hk'.
        change (dict_values ((k', x') :: items'))
          with (x' :: dict_values items') in Hv'.
        injection Hk' as -> Hk'. injection Hv' as -> Hv'.
        assert (Hitems : Ok rest = Ok items')
          by (apply IH; split; [done|]; by rewrite Hv, Hv').
        by injection Hitems as ->.
    + cbn [mbind result_bind]. split; [done|]. intros [Hk' Hv'].
      destruct (Schema.resolve_all f (dict_values items)) as [vs|e'] eqn:Hvs;
        [|done].
      cbn [mbind result_bind] in Hv'.
      destruct items' as [|[k' x'] items']; [done|].
      change (dict_keys ((k', x') :: items'))
        with (k' :: dict_keys items') in Hk'.
      change (dict_values ((k', x') :: items'))
        with (x' :: dict_values items') in Hv'.
      injection Hk' as -> Hk'. injection Hv' as -> ->.
      assert (Hitems : Raise e = Ok items') by (by apply IH).
      done.
Qed.

Section LegacyIndex.

Context (fs : gmap string data).
Context (path_join : string → string → string).
Context (dirname : string → string).
Context (re_compiles : string → bool).

Local Abbreviation R := (Schema.resolve fs path_join dirname re_compiles).

Local Abbreviation index_ancestry :=
  (Schema.Ancestry Base.current_index
                   [(convert_value, Base.legacy_index)]).

Implicit Types (scope : option string) (items suites : dict).

(** The [schema] field fails with [Invalid] only. *)
Lemma version_struct_Raise scope raw e :
  R Base.version_struct scope raw = Raise e → is_Invalid e = true.
Proof.
  unfold Base.version_struct, Schema.StrictStruct. cbn.
  destruct raw as [| | | | |l|items|c a]; try by intros [= <-].
  case_bool_decide; [by intros [= <-]|].
  destruct (dict_get items "version") as [[| |z| | | | |]|];
    cbn; by intros [= <-].
Qed.

(** The current shape rejects a dict of suites, with [Invalid]. *)
Lemma current_index_rejects_dict scope items suites :
  dict_get items "suites" = Some (DDict suites) →
  ∃ e, R Base.current_index scope (DDict items) = Raise e ∧
       is_Invalid e = true.
Proof.
  intros Hsuites. unfold Base.current_index, Schema.StrictStruct.
  rewrite resolve_Struct. cbn [andb].
  case_bool_decide; [by eexists|].
  rewrite resolve_required_cons.
  destruct (dict_get items "schema") as [sv|]; [|by eexists].
  destruct (R Base.version_struct scope sv) as [rs|e] eqn:Hrs.
  - rewrite resolve_required_cons, Hsuites.
    change (R (Schema.List Base.suite_file) scope (DDict suites))
      with (@Schema.invalid data "not a list").
    by eexists.
  - apply version_struct_Raise in Hrs. by exists e.
Qed.

(** What the legacy shape accepts, and what it resolves it to. *)
Lemma legacy_index_Ok scope items d :
  R Base.legacy_index scope (DDict items) = Ok d ↔
  Schema.unknown_keys
    [("schema", Base.version_struct);
     ("suites", Schema.Dict Base.suite_file);
     ("trees", Base.trees_dict)] [] items = [] ∧
  ∃ sv rs suites suites' tv rt,
    dict_get items "schema" = Some sv ∧
    R Base.version_struct scope sv = Ok rs ∧
    dict_get items "suites" = Some (DDict suites) ∧
    Schema.resolve_values (R Base.suite_file scope) suites = Ok suites' ∧
    dict_get items "trees" = Some tv ∧
    R Base.trees_dict scope tv = Ok rt ∧
    d = DDict [("schema", rs); ("suites", DDict suites'); ("trees", rt)].
Proof.
  unfold Base.legacy_index, Schema.StrictStruct.
  rewrite resolve_Struct. cbn [andb].
  rewrite ?resolve_required_cons. cbn [Schema.resolve_required]. split.
  - case_bool_decide as Hunknown; [done|].
    destruct (dict_get items "schema") as [sv|] eqn:Hsv; [|done].
    destruct (R Base.version_struct scope sv) as [rs|e] eqn:Hrs; [|done].
    destruct (dict_get items "suites") as [[| | | | | |suites|]|] eqn:Hvs;
      try done.
    rewrite resolve_Dict.
    destruct (Schema.resolve_values (R Base.suite_file scope) suites)
      as [suites'|e] eqn:Hss; [|done].
    destruct (dict_get items "trees") as [tv|] eqn:Htv; [|done].
    destruct (R Base.trees_dict scope tv) as [rt|e] eqn:Hrt; [|done].
    cbn [mbind result_bind app Schema.resolve_optional]. intros [= <-].
    split; [by destruct (decide (Schema.unknown_keys
              [("schema", Base.version_struct);
               ("suites", Schema.Dict Base.suite_file);
               ("trees", Base.trees_dict)] [] items = []))|].
    by exists sv, rs, suites, suites', tv, rt.
  - intros (Hunknown & sv & rs & suites & suites' & tv & rt
            & -> & -> & -> & Hss & -> & -> & ->).
    rewrite bool_decide_eq_false_2 by (by intros H).
    by rewrite resolve_Dict, Hss.
Qed.

(** The ancestry on a legacy index document: the legacy shape resolves it,
    [convert] converts the result, and the converted dict is what the
    ancestry returns. *)
Lemma index_ancestry_legacy_Ok scope items suites d :
  dict_get items "suites" = Some (DDict suites) →
  R index_ancestry scope (DDict items) = Ok d ↔
  ∃ legacy_resolved,
    R Base.legacy_index scope (DDict items) = Ok legacy_resolved ∧
    convert_value legacy_resolved = Ok d.
Proof.
  intros Hsuites. rewrite resolve_Ancestry.
  destruct (current_index_rejects_dict scope items suites Hsuites)
    as (e & -> & ->).
  cbn [Schema.try_priors].
  destruct (R Base.legacy_index scope (DDict items)) as [pr|e'] eqn:Hlegacy.
  2:{ split; [by destruct (is_Invalid e')|]. by intros (? & [=] & _). }
  pose proof Hlegacy as Hshape.
  apply legacy_index_Ok in Hshape
    as (_ & sv & rs & suites0 & suites' & tv & rt
        & _ & Hrs & _ & Hss & _ & Hrt & ->).
  assert (Hconvert :
    convert_value
      (DDict [("schema", rs); ("suites", DDict suites'); ("trees", rt)])
    = Ok (DDict [("schema", rs); ("suites", DList (dict_values suites'));
                 ("trees", rt)])).
  { rewrite (convert_value_dict _ suites') by (by dict_get_concrete).
    reflexivity. }
  rewrite Hconvert. cbn [mbind result_bind].
  apply resolve_values_Ok in Hss as [_ Hss].
  rewrite (current_index_fixed fs fs path_join dirname re_compiles
             scope scope sv rs _ _ tv rt Hrs Hss Hrt).
  split.
  - intros [= <-]. by eexists.
  - intros (? & [= <-] & Hd). by rewrite Hconvert in Hd.
Qed.

End LegacyIndex.

Section LegacyConstruction.

Context (fs : gmap string data).
Context (path_join : string → string → string).
Context (dirname : string → string).
Context (re_compiles : string → bool).

Local Abbreviation R := (Schema.resolve fs path_join dirname re_compiles).
Local Abbreviation init := (Base.init fs path_join dirname re_compiles).

Local Abbreviation index_ancestry :=
  (Schema.Ancestry Base.current_index
                   [(convert_value, Base.legacy_index)]).

Implicit Types (scope : option string) (items suites self : dict).

(** The three keys of the index document. *)
Lemma index_keys_known (suites_node : Schema.node) items :
  Schema.unknown_keys
    [("schema", Base.version_struct); ("suites", suites_node);
     ("trees", Base.trees_dict)] [] items = [] ↔
  ∀ k, k ∈ dict_keys items → k ∈ ["schema"; "suites"; "trees"].
Proof. apply unknown_keys_nil. Qed.

(** A suite named by a path is the instance of [Suite] built from the
    document at that path. *)
Lemma suite_file_of_path scope path :
  R Base.suite_file scope (DStr path) =
  match fs !! Schema.locate path_join scope path with
  | None => Schema.invalid "no such file"
  | Some document =>
      match document with
      | DObj class_name _ =>
          if decide (class_name = "Suite") then Ok document
          else Schema.invalid "instance of another class"
      | _ =>
          attrs ← Object.init "Suite"
                    (Schema.as_schema fs path_join dirname re_compiles
                                      Suite.schema scope)
                    document;
          Ok (DObj "Suite" attrs)
      end
  end.
Proof.
  unfold Base.suite_file. rewrite resolve_TypedFile. cbv zeta.
  destruct (fs !! _) as [document|]; [|done].
  rewrite resolve_ClassWrapper. by destruct document.
Qed.

(** [convert] on a resolved legacy index. *)
Lemma convert_value_resolved_legacy (rs rt : data) suites' :
  convert_value
    (DDict [("schema", rs); ("suites", DDict suites'); ("trees", rt)])
  = Ok (DDict [("schema", rs); ("suites", DList (dict_values suites'));
               ("trees", rt)]).
Proof.
  rewrite (convert_value_dict _ suites') by (by dict_get_concrete).
  reflexivity.
Qed.

(** How [Base.__init__] reads a legacy index document: the current shape
    rejects the document, the legacy shape resolves it, and [convert] of
    what it resolves to gives the attributes. *)
Lemma base_init_through_convert dir_path items suites self :
  let scope := Some (dirname (Base.index_path dir_path)) in
  fs !! Base.index_path dir_path = Some (DDict items) →
  dict_get items "suites" = Some (DDict suites) →
  init dir_path = Ok self →
  ∃ e rs rt suites',
    R Base.current_index scope (DDict items) = Raise e ∧
    is_Invalid e = true ∧
    Schema.resolve_values (R Base.suite_file scope) suites = Ok suites' ∧
    R Base.legacy_index scope (DDict items) =
      Ok (DDict [("schema", rs); ("suites", DDict suites');
                 ("trees", rt)]) ∧
    convert_value (DDict [("schema", rs); ("suites", DDict suites');
                          ("trees", rt)]) =
      Ok (DDict [("schema", rs); ("suites", DList (dict_values suites'));
                 ("trees", rt)]) ∧
    self = [("schema", rs); ("suites", DList (dict_values suites'));
            ("trees", rt); ("dir_path", DStr dir_path)].
Proof.
  intros scope Hfile Hsuites
         (document & d & Hfile' & Hres & Hself)%base_init_Ok_inv.
  rewrite Hfile in Hfile'. injection Hfile' as <-. fold scope in Hres.
  apply (index_ancestry_legacy_Ok _ _ _ _ _ _ suites) in Hres
    as (legacy_resolved & Hlegacy & Hd); [|done].
  pose proof Hlegacy as Hshape.
  apply legacy_index_Ok in Hshape
    as (Hunknown & sv & rs & suites0 & suites' & tv & rt
        & Hsv & Hrs & Hsuites0 & Hss & Htv & Hrt & ->).
  rewrite Hsuites in Hsuites0. injection Hsuites0 as <-.
  rewrite convert_value_resolved_legacy in Hd. injection Hd as <-.
  destruct (current_index_rejects_dict fs path_join dirname re_compiles
              scope items suites Hsuites) as (e & He & Hinvalid).
  exists e, rs, rt, suites'.
  split_and!; [done..|apply convert_value_resolved_legacy|by apply Hself].
Qed.

(** When [Base.__init__] returns on a legacy index document, and what. *)
Lemma base_init_legacy dir_path items suites self :
  let scope := Some (dirname (Base.index_path dir_path)) in
  fs !! Base.index_path dir_path = Some (DDict items) →
  dict_get items "suites" = Some (DDict suites) →
  init dir_path = Ok self ↔
  (∀ k, k ∈ dict_keys items → k ∈ ["schema"; "suites"; "trees"]) ∧
  ∃ sv rs tv rt ss,
    dict_get items "schema" = Some sv ∧
    R Base.version_struct scope sv = Ok rs ∧
    dict_get items "trees" = Some tv ∧
    R Base.trees_dict scope tv = Ok rt ∧
    Forall2 (λ v s, R Base.suite_file scope v = Ok s)
            (dict_values suites) ss ∧
    self = [("schema", rs); ("suites", DList ss); ("trees", rt);
            ("dir_path", DStr dir_path)].
Proof.
  intros scope Hfile Hsuites. split.
  - intros (document & d & Hfile' & Hres & Hself)%base_init_Ok_inv.
    rewrite Hfile in Hfile'. injection Hfile' as <-. fold scope in Hres.
    apply (index_ancestry_legacy_Ok _ _ _ _ _ _ suites) in Hres
      as (legacy_resolved & Hlegacy & Hd); [|done].
    apply legacy_index_Ok in Hlegacy
      as (Hunknown & sv & rs & suites0 & suites' & tv & rt
          & Hsv & Hrs & Hsuites0 & Hss & Htv & Hrt & ->).
    rewrite Hsuites in Hsuites0. injection Hsuites0 as <-.
    rewrite convert_value_resolved_legacy in Hd. injection Hd as <-.
    apply resolve_values_Ok in Hss as [Hkeys Hss].
    apply resolve_all_Ok in Hss.
    split; [by apply (index_keys_known (Schema.Dict Base.suite_file))|].
    exists sv, rs, tv, rt, (dict_values suites'). split_and!; try done.
    by apply Hself.
  - intros (Hkeys & sv & rs & tv & rt & ss
            & Hsv & Hrs & Htv & Hrt & Hss & ->).
    apply resolve_all_Ok in Hss.
    destruct (resolve_values_of_all _ _ _ Hss)
      as (suites' & Hvalues & <- & Hk).
    apply (base_init_resolved fs path_join dirname re_compiles dir_path
             (DDict items)); [done| |].
    + fold scope. apply (index_ancestry_legacy_Ok _ _ _ _ _ _ suites);
        [done|].
      eexists. split; [|apply convert_value_resolved_legacy].
      apply legacy_index_Ok.
      split; [by apply (index_keys_known (Schema.Dict Base.suite_file))|].
      by exists sv, rs, suites, suites', tv, rt.
    + by apply (current_index_valid fs path_join dirname re_compiles scope
                  sv rs (dict_values suites) _ tv rt).
Qed.

(** What [Base.__init__] returns on an index document of the current
    shape. *)
Lemma base_init_current dir_path items (l : list data) self :
  let scope := Some (dirname (Base.index_path dir_path)) in
  fs !! Base.index_path dir_path = Some (DDict items) →
  dict_get items "suites" = Some (DList l) →
  init dir_path = Ok self ↔
  (∀ k, k ∈ dict_keys items → k ∈ ["schema"; "suites"; "trees"]) ∧
  ∃ sv rs tv rt ss,
    dict_get items "schema" = Some sv ∧
    R Base.version_struct scope sv = Ok rs ∧
    dict_get items "trees" = Some tv ∧
    R Base.trees_dict scope tv = Ok rt ∧
    Forall2 (λ v s, R Base.suite_file scope v = Ok s) l ss ∧
    self = [("schema", rs); ("suites", DList ss); ("trees", rt);
            ("dir_path", DStr dir_path)].
Proof.
  intros scope Hfile Hsuites. split.
  - intros (document & d & Hfile' & Hres & Hself)%base_init_Ok_inv.
    rewrite Hfile in Hfile'. injection Hfile' as <-. fold scope in Hres.
    apply (index_ancestry_current _ _ _ _ _ _ l) in Hres; [|done].
    apply current_index_Ok in Hres
      as (Hunknown & sv & rs & vs & ss & tv & rt
          & Hsv & Hrs & Hvs & Hss & Htv & Hrt & ->).
    rewrite Hsuites in Hvs. injection Hvs as <-.
    apply resolve_all_Ok in Hss.
    split; [by apply (index_keys_known (Schema.List Base.suite_file))|].
    exists sv, rs, tv, rt, ss. split_and!; try done. by apply Hself.
  - intros (Hkeys & sv & rs & tv & rt & ss
            & Hsv & Hrs & Htv & Hrt & Hss & ->).
    apply resolve_all_Ok in Hss.
    apply (base_init_resolved fs path_join dirname re_compiles dir_path
             (DDict items)); [done| |].
    + fold scope. rewrite resolve_Ancestry.
      assert (Hcur : R Base.current_index scope (DDict items)
                = Ok (DDict [("schema", rs); ("suites", DList ss);
                             ("trees", rt)])); [|by rewrite Hcur].
      apply current_index_Ok.
      split; [by apply (index_keys_known (Schema.List Base.suite_file))|].
      by exists sv, rs, l, ss, tv, rt.
    + by apply (current_index_valid fs path_join dirname re_compiles scope
                  sv rs l ss tv rt).
Qed.

End LegacyConstruction.

Section LegacySibling.

Context (fs : gmap string data).
Context (path_join : string → string → string).
Context (dirname : string → string).
Context (re_compiles : string → bool).
Context (dir_path : string) (items suites : dict) (l : list data).

Local Abbreviation index := (Base.index_path dir_path).
Local Abbreviation scope := (Some (dirname index)).
Local Abbreviation items_l := (dict_set items "suites" (DList l)).
Local Abbreviation fs' := (<[index := DDict items_l]> fs).
Local Abbreviation R := (Schema.resolve fs path_join dirname re_compiles).
Local Abbreviation R' := (Schema.resolve fs' path_join dirname re_compiles).

Hypothesis Hfile : fs !! index = Some (DDict items).
Hypothesis Hsuites : dict_get items "suites" = Some (DDict suites).
Hypothesis Hperm : l ≡ₚ dict_values suites.
Hypothesis Hpaths :
  ∀ path, DStr path ∈ l → path_join (dirname index) path ≠ index.

Lemma sibling_keys : dict_keys items_l = dict_keys items.
Proof. apply dict_keys_set_present. rewrite Hsuites. eauto. Qed.

Lemma sibling_suite_file v :
  v ∈ l → R' Base.suite_file scope v = R Base.suite_file scope v.
Proof.
  intros Hv. apply suite_file_same_files. intros path ->.
  cbn [Schema.locate]. apply lookup_insert_ne. intros Heq.
  by apply (Hpaths path).
Qed.

Lemma sibling_suites (ss : list data) :
  Schema.resolve_all (R' Base.suite_file scope) l = Ok ss ↔
  Schema.resolve_all (R Base.suite_file scope) l = Ok ss.
Proof.
  by rewrite (resolve_all_ext _ (R Base.suite_file scope) l)
    by apply sibling_suite_file.
Qed.

Lemma sibling_version raw :
  R' Base.version_struct scope raw = R Base.version_struct scope raw.
Proof. symmetry. by apply resolve_file_free. Qed.

Lemma sibling_trees raw :
  R' Base.trees_dict scope raw = R Base.trees_dict scope raw.
Proof. symmetry. by apply resolve_file_free. Qed.

(** The database of a legacy index document and the database of the same
    document with the suites in a list. *)
Lemma base_init_legacy_sibling :
  (∀ self,
     Base.init fs path_join dirname re_compiles dir_path = Ok self →
     ∃ self' ss ss',
       Base.init fs' path_join dirname re_compiles dir_path = Ok self' ∧
       dict_get self "suites" = Some (DList ss) ∧
       dict_get self' "suites" = Some (DList ss') ∧
       ss ≡ₚ ss' ∧
       (l = dict_values suites → self = self') ∧
       (∀ k, k ≠ "suites" → dict_get self k = dict_get self' k)) ∧
  (∀ self',
     Base.init fs' path_join dirname re_compiles dir_path = Ok self' →
     ∃ self ss ss',
       Base.init fs path_join dirname re_compiles dir_path = Ok self ∧
       dict_get self "suites" = Some (DList ss) ∧
       dict_get self' "suites" = Some (DList ss') ∧
       ss ≡ₚ ss' ∧
       (l = dict_values suites → self = self') ∧
       (∀ k, k ≠ "suites" → dict_get self k = dict_get self' k)).
Proof.
  assert (Hfile' : fs' !! index = Some (DDict items_l))
    by apply lookup_insert_eq.
  assert (Hsuites' : dict_get items_l "suites" = Some (DList l))
    by apply dict_get_set_eq.
  assert (Hschema : dict_get items_l "schema" = dict_get items "schema")
    by (by apply dict_get_set_ne).
  assert (Htrees : dict_get items_l "trees" = dict_get items "trees")
    by (by apply dict_get_set_ne).
  split.
  - intros self (Hkeys & sv & rs & tv & rt & ss
                 & Hsv & Hrs & Htv & Hrt & Hss & ->)%(base_init_legacy
                   fs path_join dirname re_compiles dir_path items suites);
      [|done..].
    apply resolve_all_Ok in Hss.
    destruct (resolve_all_Permutation _ _ l _ (symmetry Hperm) Hss)
      as (ss' & Hss' & Hpss).
    exists [("schema", rs); ("suites", DList ss'); ("trees", rt);
            ("dir_path", DStr dir_path)], ss, ss'.
    split_and!.
    + apply (base_init_current fs' path_join dirname re_compiles dir_path
               items_l l); [done..|].
      split; [by rewrite sibling_keys|].
      exists sv, rs, tv, rt, ss'. split_and!.
      * by rewrite Hschema.
      * by rewrite sibling_version.
      * by rewrite Htrees.
      * by rewrite sibling_trees.
      * by apply resolve_all_Ok, sibling_suites.
      * done.
    + by dict_get_concrete.
    + by dict_get_concrete.
    + done.
    + intros ->. rewrite Hss in Hss'. by injection Hss' as ->.
    + intros k Hk. cbn [dict_get]. repeat case_decide; congruence.
  - intros self' (Hkeys & sv & rs & tv & rt & ss'
                  & Hsv & Hrs & Htv & Hrt & Hss' & ->)%(base_init_current
                    fs' path_join dirname re_compiles dir_path items_l l);
      [|done..].
    apply resolve_all_Ok, sibling_suites in Hss'.
    destruct (resolve_all_Permutation _ _ _ _ Hperm Hss')
      as (ss & Hss & Hpss).
    exists [("schema", rs); ("suites", DList ss); ("trees", rt);
            ("dir_path", DStr dir_path)], ss, ss'.
    split_and!.
    + apply (base_init_legacy fs path_join dirname re_compiles dir_path
               items suites); [done..|].
      split; [by rewrite <- sibling_keys|].
      exists sv, rs, tv, rt, ss. split_and!.
      * by rewrite <- Hschema.
      * by rewrite <- sibling_version.
      * by rewrite <- Htrees.
      * by rewrite <- sibling_trees.
      * by apply resolve_all_Ok.
      * done.
    + by dict_get_concrete.
    + by dict_get_concrete.
    + done.
    + intros ->. rewrite Hss in Hss'. by injection Hss' as ->.
    + intros k Hk. cbn [dict_get]. repeat case_decide; congruence.
Qed.

End LegacySibling.
(* ===================================================================== *)
(** * Verified claims: case lookup and selection *)
(* ===================================================================== *)

Section SelectionClaims.

Context (re_match : string → string → bool).

Implicit Types (s : Suite.t) (c : Case.t) (pat : Pattern.t)
  (paths : gset string) (db : Base.t).

(** C1: with an empty path set, [Suite.match_case_set] returns exactly the
    set of the cases declared in the suite, [set(self.cases)], whatever the
    suite's patterns are: the empty selector selects everything. *)
Theorem suite_match_case_set_empty_selects_all s :
  Suite.match_case_set re_match s ∅ = list_to_set (Suite.cases s) ∧
  (∀ c, c ∈ Suite.match_case_set re_match s ∅ ↔ c ∈ Suite.cases s) ∧
  (∀ ps, Suite.match_case_set re_match (Suite.with_patterns s ps) ∅ =
         Suite.match_case_set re_match s ∅).
Proof.
  split_and!.
  - apply match_case_set_empty.
  - intros c. rewrite match_case_set_empty. apply elem_of_list_to_set.
  - intros ps. by rewrite !match_case_set_empty.
Qed.

(** C2: for a non-empty path set, [Suite.match_case_set] returns a subset
    of the declared cases; a case is in the result exactly when some
    declared pattern matches some path of the set and [get_case] of that
    pattern's [case_name] returns the case; the result is a set, so a case
    reached through several patterns or paths occurs once. *)
Theorem suite_match_case_set_nonempty s paths :
  paths ≠ ∅ →
  Suite.match_case_set re_match s paths ⊆ list_to_set (Suite.cases s) ∧
  (∀ c, c ∈ Suite.match_case_set re_match s paths ↔
        ∃ pat p, pat ∈ Suite.patterns s ∧ p ∈ paths ∧
                 re_match (Pattern.pattern pat) p = true ∧
                 Suite.get_case s (Pattern.case_name pat) = Some c) ∧
  NoDup (elements (Suite.match_case_set re_match s paths)).
Proof.
  intros Hne. split_and!.
  - intros c (pat & p & _ & _ & _ & Hg)%elem_of_match_case_set; [|done].
    apply elem_of_list_to_set. by apply get_case_elem_of in Hg as [? _].
  - intros c. by apply elem_of_match_case_set.
  - apply NoDup_elements.
Qed.

(** C4: [Base.match_case_set] is the union of [Suite.match_case_set] over
    the suites of the database; [Base.match_suite_set] is exactly the set
    of the suites whose [matches] is true; and [Suite.matches] is true
    exactly when [Suite.match_case_set] is non-empty. *)
Theorem base_match_sets db paths :
  Base.match_case_set re_match db paths =
    ⋃ ((λ s, Suite.match_case_set re_match s paths) <$> Base.suites db) ∧
  (∀ s, s ∈ Base.match_suite_set re_match db paths ↔
        s ∈ Base.suites db ∧ Suite.matches re_match s paths = true) ∧
  (∀ s, Suite.matches re_match s paths = true ↔
        Suite.match_case_set re_match s paths ≠ ∅).
Proof.
  split_and!.
  - apply set_eq. intros c. unfold Base.match_case_set.
    rewrite elem_of_base_loop, elem_of_union_list. split.
    + intros [?|(s & Hs & Hc)]; [done|].
      exists (Suite.match_case_set re_match s paths). split; [|done].
      apply list_elem_of_fmap. by exists s.
    + intros (X & (s & -> & Hs)%list_elem_of_fmap & Hc). right. by exists s.
  - intros s. unfold Base.match_suite_set.
    rewrite elem_of_list_to_set, list_elem_of_filter. tauto.
  - intros s. unfold Suite.matches. apply bool_decide_eq_true.
Qed.

(** C5: [Suite.get_case] returns the first case, in declaration order,
    whose [name] is the argument, and [None] when no case has that name;
    when two cases have the name, the one declared earlier is returned. *)
Theorem suite_get_case_first s n :
  (∀ c, Suite.get_case s n = Some c ↔
        ∃ before after, Suite.cases s = before ++ c :: after ∧
                        Case.name c = n ∧
                        ∀ c', c' ∈ before → Case.name c' ≠ n) ∧
  (Suite.get_case s n = None ↔
     ∀ c, c ∈ Suite.cases s → Case.name c ≠ n) ∧
  (∀ before c1 between c2 after,
     Suite.cases s = before ++ c1 :: between ++ c2 :: after →
     (∀ c', c' ∈ before → Case.name c' ≠ n) →
     Case.name c1 = n → Case.name c2 = n →
     Suite.get_case s n = Some c1).
Proof.
  split_and!.
  - intros c. apply get_case_loop_Some.
  - apply get_case_loop_None.
  - intros before c1 between c2 after Heq Hb H1 _.
    apply get_case_loop_Some. by exists before, (between ++ c2 :: after).
Qed.

(** C6: a pattern whose [case_name] names no case of the suite raises no
    error in [Suite.match_case_set] (the function is total: [get_case]
    returns [None] and the pattern is skipped) and contributes no case:
    the result is the one of the suite without that pattern, and every
    selected case comes from another pattern. *)
Theorem suite_dangling_pattern_inert s pat paths :
  pat ∈ Suite.patterns s →
  Suite.get_case s (Pattern.case_name pat) = None →
  Suite.match_case_set re_match s paths =
    Suite.match_case_set re_match
      (Suite.with_patterns s (filter (λ q, q ≠ pat) (Suite.patterns s)))
      paths ∧
  (paths ≠ ∅ →
   ∀ c, c ∈ Suite.match_case_set re_match s paths →
        ∃ pat' p, pat' ∈ Suite.patterns s ∧ pat' ≠ pat ∧ p ∈ paths ∧
                  re_match (Pattern.pattern pat') p = true ∧
                  Suite.get_case s (Pattern.case_name pat') = Some c).
Proof.
  intros Hin Hnone.
  assert (Hsel : paths ≠ ∅ →
    ∀ c, c ∈ Suite.match_case_set re_match s paths →
         ∃ pat' p, pat' ∈ Suite.patterns s ∧ pat' ≠ pat ∧ p ∈ paths ∧
                   re_match (Pattern.pattern pat') p = true ∧
                   Suite.get_case s (Pattern.case_name pat') = Some c).
  { intros Hne c (pat' & p & ? & ? & ? & Hg)%elem_of_match_case_set; [|done].
    exists pat', p. split_and!; [done| |done..]. intros ->. congruence. }
  split; [|done].
  destruct (decide (paths = ∅)) as [->|Hne].
  - by rewrite !match_case_set_empty.
  - apply set_eq. intros c. split.
    + intros (pat' & p & ? & ? & ? & ? & ?)%Hsel; [|done].
      apply elem_of_match_case_set; [done|]. exists pat', p.
      split_and!; [|done..]. simpl. by apply list_elem_of_filter.
    + intros (pat' & p & Hf & ? & ? & ?)%elem_of_match_case_set; [|done].
      apply elem_of_match_case_set; [done|]. exists pat', p.
      split_and!; [|done..]. simpl in Hf.
      by apply list_elem_of_filter in Hf as [_ ?].
Qed.

(** C10: a suite whose [cases] list is empty selects nothing for any path
    set, the empty one included; [matches] is false; the suite is in no
    [Base.match_suite_set] and adds nothing to [Base.match_case_set]. *)
Theorem suite_without_cases_never_matches s paths :
  Suite.cases s = [] →
  Suite.match_case_set re_match s paths = ∅ ∧
  Suite.matches re_match s paths = false ∧
  (∀ db, s ∉ Base.match_suite_set re_match db paths) ∧
  (∀ db, Base.match_case_set re_match db paths =
         Base.match_case_set re_match
           (Base.with_suites db (filter (λ s', s' ≠ s) (Base.suites db)))
           paths).
Proof.
  intros Hnil.
  assert (Hempty : ∀ paths', Suite.match_case_set re_match s paths' = ∅).
  { intros paths'. destruct (decide (paths' = ∅)) as [->|Hne].
    - by rewrite match_case_set_empty, Hnil.
    - apply set_eq. intros c. split; [|set_solver].
      intros (pat & p & _ & _ & _ & Hg)%elem_of_match_case_set; [|done].
      apply get_case_elem_of in Hg as [Hc _]. rewrite Hnil in Hc.
      by apply elem_of_nil in Hc. }
  assert (Hm : Suite.matches re_match s paths = false).
  { unfold Suite.matches. apply bool_decide_eq_false. rewrite Hempty.
    by intros H. }
  split_and!; [done..| |].
  - intros db. unfold Base.match_suite_set.
    rewrite elem_of_list_to_set, list_elem_of_filter. intros [? _].
    congruence.
  - intros db. apply set_eq. intros c. unfold Base.match_case_set.
    rewrite !elem_of_base_loop. simpl. split.
    + intros [?|(s' & Hs' & Hc)]; [done|]. right. exists s'.
      split; [|done]. apply list_elem_of_filter. split; [|done].
      intros ->. rewrite Hempty in Hc. set_solver.
    + intros [?|(s' & [_ ?]%list_elem_of_filter & Hc)]; [done|].
      right. by exists s'.
Qed.

End SelectionClaims.


Example net_suite_selects_net :
  elements (Suite.match_case_set literal_match net_suite
              {[ "drivers/net/e1000.c" ]})
  = [net_tests].
Proof. by vm_compute. Qed.

Example net_suite_skips_fs :
  elements (Suite.match_case_set literal_match net_suite {[ "fs/ext4.c" ]})
  = [].
Proof. by vm_compute. Qed.

Example net_suite_empty_selector :
  elements (Suite.match_case_set literal_match net_suite ∅) = [net_tests].
Proof. by vm_compute. Qed.

Example dup_suite_first_declared :
  Suite.get_case dup_suite "net-tests" = Some net_tests.
Proof. reflexivity. Qed.

Example dup_suite_two_paths_one_case :
  elements (Suite.match_case_set literal_match dup_suite
              {[ "drivers/net/e1000.c"; "drivers/net/tg3.c" ]})
  = [net_tests].
Proof. by vm_compute. Qed.

Example dup_suite_empty_selector_both :
  size (Suite.match_case_set literal_match dup_suite ∅) = 2.
Proof. by vm_compute. Qed.

Example example_db_suites_for_net :
  elements (Base.match_suite_set literal_match example_db
              {[ "drivers/net/e1000.c" ]})
  ≡ₚ [net_suite; dup_suite].
Proof. vm_compute. first [reflexivity | apply perm_swap]. Qed.

Lemma suite_match_case_set_nonempty_witness :
  ({[ "drivers/net/e1000.c"; "fs/ext4.c" ]} : gset string) ≠ ∅ ∧
  Suite.match_case_set literal_match net_suite
    {[ "drivers/net/e1000.c"; "fs/ext4.c" ]}
  ⊆ list_to_set (Suite.cases net_suite).
Proof.
  split; [set_solver|].
  apply (suite_match_case_set_nonempty literal_match net_suite
           {[ "drivers/net/e1000.c"; "fs/ext4.c" ]}).
  set_solver.
Defined.

Lemma suite_dangling_pattern_inert_witness :
  fs_pattern ∈ Suite.patterns staged_suite ∧
  Suite.get_case staged_suite (Pattern.case_name fs_pattern) = None ∧
  Suite.match_case_set literal_match staged_suite
    {[ "fs/ext4.c"; "drivers/net/e1000.c" ]}
  = Suite.match_case_set literal_match
      (Suite.with_patterns staged_suite
         (filter (λ q, q ≠ fs_pattern) (Suite.patterns staged_suite)))
      {[ "fs/ext4.c"; "drivers/net/e1000.c" ]}.
Proof.
  split; [left|]. split; [reflexivity|].
  apply (suite_dangling_pattern_inert literal_match staged_suite fs_pattern
           {[ "fs/ext4.c"; "drivers/net/e1000.c" ]}); [left | reflexivity].
Defined.

Lemma suite_without_cases_never_matches_witness :
  Suite.cases empty_suite = [] ∧
  Suite.match_case_set literal_match empty_suite ∅ = ∅ ∧
  Suite.matches literal_match empty_suite {[ "drivers/net/e1000.c" ]} = false.
Proof.
  split; [reflexivity|]. split.
  - apply (suite_without_cases_never_matches literal_match empty_suite ∅).
    reflexivity.
  - apply (suite_without_cases_never_matches literal_match empty_suite
             {[ "drivers/net/e1000.c" ]}).
    reflexivity.
Defined.

(* ===================================================================== *)
(** * Verified claims: the typed object binder *)
(* ===================================================================== *)

(** C7: when [schema.resolve] raises [Invalid], the constructor raises
    [Invalid] with the message "Invalid <type> data" for the type name of
    the object; when [resolve] succeeds and [validate] raises [Invalid], the
    constructor raises an exception of another class; when the constructor
    returns, every required key of the recognized struct is an attribute
    holding the resolved value of that key, every optional key is an
    attribute holding the resolved value or [None] when the resolved data
    lacks the key, and there is no other attribute; and the constructor does
    return when the resolved data is a dict that validates and has the
    required keys. *)
Theorem object_init_contract (type_name : string) (schema : Object.Schema)
    (raw : data) :
  (∀ fmt args,
     Object.resolve schema raw = Raise (Invalid fmt args) →
     Object.init type_name schema raw =
       Raise (Invalid "Invalid {} data" [type_name]) ∧
     exn_message (Invalid "Invalid {} data" [type_name]) =
       ("Invalid " ++ type_name ++ " data")%string) ∧
  (∀ d struct fmt args,
     Object.resolve schema raw = Ok d →
     Object.recognize schema = Some struct →
     Object.validate struct d = Raise (Invalid fmt args) →
     ∃ e, Object.init type_name schema raw = Raise e ∧
          e = Exception ("Resolved data is invalid:" ++ newline ++
                         exn_message (Invalid fmt args))%string ∧
          is_Invalid e = false) ∧
  (∀ self,
     Object.init type_name schema raw = Ok self →
     ∃ d struct,
       Object.resolve schema raw = Ok d ∧
       Object.recognize schema = Some struct ∧
       Object.validate struct d = Ok () ∧
       (∀ n, n ∈ Object.required struct →
             ∃ v, Object.subscript d n = Ok v ∧ dict_get self n = Some v) ∧
       (∀ n, n ∈ Object.optional struct →
             ∃ items, d = DDict items ∧
                      dict_get self n =
                        Some (default DNone (dict_get items n))) ∧
       (∀ k, k ∉ Object.required struct → k ∉ Object.optional struct →
             dict_get self k = None)) ∧
  (∀ items struct,
     Object.resolve schema raw = Ok (DDict items) →
     Object.recognize schema = Some struct →
     Object.validate struct (DDict items) = Ok () →
     (∀ n, n ∈ Object.required struct → is_Some (dict_get items n)) →
     ∃ self, Object.init type_name schema raw = Ok self).
Proof.
  split_and!.
  - intros fmt args Hres. unfold Object.init. rewrite Hres. done.
  - intros d struct fmt args Hres Hrec Hval. unfold Object.init.
    rewrite Hres, Hrec, Hval. cbn [is_Invalid].
    rewrite str_format_resolved_invalid. by eexists.
  - intros self. unfold Object.init.
    destruct (Object.resolve schema raw) as [d|e] eqn:Hres;
      [|by destruct (is_Invalid e)].
    destruct (Object.recognize schema) as [struct|] eqn:Hrec; [|done].
    destruct (Object.validate struct d) as [[]|e] eqn:Hval;
      [|by destruct (is_Invalid e)].
    destruct (Object.assign_required (Object.required struct) d [])
      as [mid|e] eqn:Hreq; simpl; [|done].
    intros Hopt. exists d, struct.
    apply assign_required_spec in Hreq as [Hreq_in Hreq_out].
    apply assign_optional_spec in Hopt as [Hopt_in Hopt_out].
    split_and!; [done..| | |].
    + intros n Hn. destruct (Hreq_in n Hn) as (v & Hsub & Hmid).
      exists v. split; [done|].
      destruct (decide (n ∈ Object.optional struct)) as [Ho|Ho].
      * destruct (Hopt_in n Ho) as (w & Hget & Hself). rewrite Hself.
        destruct d; try done. simpl in Hsub, Hget.
        destruct (dict_get items n); simpl in *; congruence.
      * by rewrite Hopt_out.
    + intros n Hn. destruct (Hopt_in n Hn) as (w & Hget & Hself).
      destruct d; try done. simpl in Hget. eexists. split; [done|].
      congruence.
    + intros k Hr Ho. by rewrite Hopt_out, Hreq_out.
  - intros items struct Hres Hrec Hval Hall. unfold Object.init.
    rewrite Hres, Hrec, Hval.
    destruct (assign_required_total (Object.required struct) items [] Hall)
      as [mid ->]. simpl. apply assign_optional_total.
Qed.

Example case_init_invalid :
  let r := Object.init "Case"
             (Schema.as_schema ∅ posix_join posix_dirname every_regex
                               Case.schema None)
             (DDict [("ignore_panic", DBool true)]) in
  r = Raise (Invalid "Invalid {} data" ["Case"]) ∧
  (∀ e, r = Raise e → exn_message e = "Invalid Case data").
Proof. split; [by vm_compute|]. intros e [= <-]. reflexivity. Qed.

Example object_init_inconsistent :
  Object.init "Case" inconsistent_schema (DDict [("name", DStr "a")])
  = Raise (Exception ("Resolved data is invalid:" ++ newline ++
                      "never valid")).
Proof. by vm_compute. Qed.

Example case_init_binds_fields :
  Object.init "Case"
    (Schema.as_schema ∅ posix_join posix_dirname every_regex
                      Case.schema None)
    (DDict [("tasks", DStr "t.xml"); ("name", DStr "a")])
  = Ok [("name", DStr "a"); ("ignore_panic", DNone);
        ("hostRequires", DNone); ("partitions", DNone);
        ("kickstart", DNone); ("tasks", DStr "t.xml")].
Proof. by vm_compute. Qed.

(* ===================================================================== *)
(** * Verified claims: run generation *)
(* ===================================================================== *)

Section RenderingClaims.

Context (re_match : string → string → bool).
Context (os_getenv : string → option string).
Context {Template Element : Type}.
Context (get_template : JinjaEnvironment → string → result Template).
Context (render : Template → Params.t → result string).
Context (etree_XML : string → XMLParser → result Element).
Context (etree_tostring : Element → TostringOptions → string).
Context (decode : string → string → result string).

Local Abbreviation generate_run :=
  (Base.generate_run re_match os_getenv get_template render etree_XML
                     etree_tostring decode).
Local Abbreviation lint_text :=
  (Base.lint_text etree_XML etree_tostring decode).

(** C8: [generate_run] asserts that [tree_name] is a key of [trees]: when
    it is not, the call ends in an [AssertionError], not in [Invalid];
    when it is, the template registered for [tree_name] is loaded and
    rendered with the description, the kernel location, the architecture,
    the tree name, the path set as given, the set of all the suites, the
    two matching functions and the environment lookup. *)
Theorem generate_run_requires_known_tree (self : Base.t)
    (description tree_name arch_name kernel_location : string)
    (src_path_set : gset string) (lint : bool) :
  (tree_name ∉ dom (Base.trees self) →
   generate_run self description tree_name arch_name kernel_location
                src_path_set lint = Raise AssertionError ∧
   is_Invalid AssertionError = false) ∧
  (∀ template_path,
     Base.trees self !! tree_name = Some template_path →
     generate_run self description tree_name arch_name kernel_location
                  src_path_set lint =
       (template ← get_template
                     {| loader_searchpath := [Base.dir_path self];
                        trim_blocks := true;
                        keep_trailing_newline := true;
                        lstrip_blocks := true;
                        autoescape_enabled_extensions := "xml";
                        autoescape_default_for_string := true |}
                     template_path;
        text ← render template
                 {| Params.DESCRIPTION := description;
                    Params.KURL := kernel_location;
                    Params.ARCH := arch_name;
                    Params.TREE := tree_name;
                    Params.SRC_PATH_SET := src_path_set;
                    Params.SUITE_SET := list_to_set (Base.suites self);
                    Params.match_suite_set :=
                      Base.match_suite_set re_match self;
                    Params.match_case_set :=
                      Base.match_case_set re_match self;
                    Params.getenv := os_getenv |};
        if lint then lint_text text else Ok text)).
Proof.
  split.
  - intros Hnot. split; [|done]. unfold Base.generate_run.
    by rewrite bool_decide_eq_false_2.
  - intros template_path Hpath. unfold Base.generate_run.
    rewrite bool_decide_eq_true_2 by (apply elem_of_dom; eauto).
    unfold Base.get_tree_template. by rewrite Hpath.
Qed.

(** C9: with [lint] set, the text returned is the rendered text parsed as
    XML by a parser that removes blank text and serialized again with
    pretty printing and an XML declaration; when the parser rejects the
    rendered text, [generate_run] raises the parser's error and returns
    no text. *)
Theorem generate_run_lint (self : Base.t)
    (description tree_name arch_name kernel_location : string)
    (src_path_set : gset string) :
  let parser := {| remove_blank_text := true;
                   parser_encoding := "utf-8" |} in
  let options := {| tostring_encoding := "utf-8";
                    xml_declaration := true;
                    pretty_print := true |} in
  let params := Base.run_params re_match os_getenv self description
                  tree_name arch_name kernel_location src_path_set in
  (∀ out,
     generate_run self description tree_name arch_name kernel_location
                  src_path_set true = Ok out →
     ∃ template_path template text tree,
       Base.trees self !! tree_name = Some template_path ∧
       get_template (Base.jinja_env self) template_path = Ok template ∧
       render template params = Ok text ∧
       etree_XML text parser = Ok tree ∧
       decode (etree_tostring tree options) "utf-8" = Ok out) ∧
  (∀ template_path template text,
     Base.trees self !! tree_name = Some template_path →
     get_template (Base.jinja_env self) template_path = Ok template →
     render template params = Ok text →
     match etree_XML text parser with
     | Ok tree =>
         generate_run self description tree_name arch_name
                      kernel_location src_path_set true =
         decode (etree_tostring tree options) "utf-8"
     | Raise e =>
         generate_run self description tree_name arch_name
                      kernel_location src_path_set true = Raise e
     end).
Proof.
  intros parser options params. split.
  - intros out. unfold Base.generate_run. case_bool_decide; [|done].
    unfold Base.get_tree_template.
    destruct (Base.trees self !! tree_name) as [template_path|] eqn:Hpath;
      [|done].
    destruct (get_template (Base.jinja_env self) template_path)
      as [template|e] eqn:Hget; [|done].
    simpl. fold params.
    destruct (render template params) as [text|e] eqn:Hrender; [|done].
    simpl. unfold Base.lint_text. fold parser options.
    destruct (etree_XML text parser) as [tree|e] eqn:Hparse; [|done].
    simpl. intros Hout. by exists template_path, template, text, tree.
  - intros template_path template text Hpath Hget Hrender.
    unfold Base.generate_run.
    rewrite bool_decide_eq_true_2 by (apply elem_of_dom; eauto).
    unfold Base.get_tree_template. rewrite Hpath, Hget. simpl.
    fold params. rewrite Hrender. simpl. unfold Base.lint_text.
    fold parser options. by destruct (etree_XML text parser).
Qed.

End RenderingClaims.

Example generate_run_three_suites :
  Base.generate_run literal_match no_environment toy_get_template toy_render
    toy_XML toy_tostring toy_decode example_db "nightly" "upstream" "x86_64"
    "http://example/kernel.tar.gz" ∅ false
  = Ok "<job>3 suites</job>".
Proof. by vm_compute. Qed.

Example generate_run_unknown_tree :
  Base.generate_run literal_match no_environment toy_get_template toy_render
    toy_XML toy_tostring toy_decode example_db "nightly" "rhel" "x86_64"
    "http://example/kernel.tar.gz" ∅ true
  = Raise AssertionError.
Proof. by vm_compute. Qed.

Example generate_run_lint_reformats :
  Base.generate_run literal_match no_environment toy_get_template toy_render
    toy_XML toy_tostring toy_decode example_db "nightly" "upstream" "x86_64"
    "http://example/kernel.tar.gz" ∅ true
  = Ok "<?xml version='1.0'?><job>3 suites</job>".
Proof. by vm_compute. Qed.

Example generate_run_lint_rejects_text :
  Base.generate_run literal_match no_environment toy_get_template
    toy_render_text toy_XML toy_tostring toy_decode example_db "nightly"
    "upstream" "x86_64" "http://example/kernel.tar.gz" ∅ true
  = Raise (XMLSyntaxError "start tag expected").
Proof. by vm_compute. Qed.

(* ===================================================================== *)
(** * Verified claims: reading a legacy index document *)
(* ===================================================================== *)


Example convert_value_legacy_items :
  convert_value (DDict legacy_items)
  = Ok (DDict [("schema", DDict [("version", DInt 1)]);
               ("suites", DList [DStr "suites/net.yaml";
                                 DStr "suites/fs.yaml"]);
               ("trees", DDict [("upstream", DStr "trees/upstream.xml")])]).
Proof. by vm_compute. Qed.

Example legacy_database_attributes :
  (self ← Base.init legacy_fs posix_join posix_dirname every_regex "/db";
   Ok (dict_keys self))
  = Ok ["schema"; "suites"; "trees"; "dir_path"].
Proof. by vm_compute. Qed.

Example legacy_database_suites :
  match Base.init legacy_fs posix_join posix_dirname every_regex "/db" with
  | Ok self =>
      match dict_get self "suites" with
      | Some (DList ss) =>
          Some ((λ s, match s with
                      | DObj class_name attrs =>
                          (class_name, dict_get attrs "description")
                      | _ => ("", None)
                      end) <$> ss)
      | _ => None
      end
  | Raise _ => None
  end
  = Some [("Suite", Some (DStr "network tests"));
          ("Suite", Some (DStr "file system tests"))].
Proof. by vm_compute. Qed.


(* ===================================================================== *)
(** * A database from disk to the rendered run *)
(* ===================================================================== *)

Example legacy_db_loaded :
  (λ db, (Base.dir_path db, Suite.description <$> Base.suites db,
          Base.trees db !! "upstream")) <$> legacy_db
  = Some ("/db", ["network tests"; "file system tests"],
          Some "trees/upstream.xml").
Proof. by vm_compute. Qed.

Example legacy_db_selects_net :
  (λ db, Case.name <$> elements (Base.match_case_set literal_match db
                                   {[ "drivers/net/e1000.c" ]}))
    <$> legacy_db
  = Some ["net-tests"].
Proof. by vm_compute. Qed.

Example legacy_db_selects_nothing_for_docs :
  (λ db, Case.name <$> elements (Base.match_case_set literal_match db
                                   {[ "Documentation/index.rst" ]}))
    <$> legacy_db
  = Some [].
Proof. by vm_compute. Qed.

Example legacy_db_empty_selector_selects_all :
  (λ db, size (Base.match_case_set literal_match db ∅)) <$> legacy_db
  = Some 2.
Proof. by vm_compute. Qed.

Example legacy_db_run :
  (λ db, Base.generate_run literal_match no_environment toy_get_template
           toy_render toy_XML toy_tostring toy_decode db "nightly"
           "upstream" "x86_64" "http://example/kernel.tar.gz" ∅ true)
    <$> legacy_db
  = Some (Ok "<?xml version='1.0'?><job>2 suites</job>").
Proof. by vm_compute. Qed.

(* ===================================================================== *)
(** * Further properties: case lookup and selection *)
(* ===================================================================== *)

Section SelectionExtras.

Context (re_match : string → string → bool).

Implicit Types (s : Suite.t) (c : Case.t) (pat : Pattern.t)
  (paths : gset string) (db : Base.t).

(** X1: whatever the path set, the cases [Suite.match_case_set] returns are
    among those it returns for the empty path set. *)
Theorem suite_selection_within_empty_selector s paths :
  Suite.match_case_set re_match s paths
  ⊆ Suite.match_case_set re_match s ∅.
Proof.
  rewrite (match_case_set_empty re_match s).
  apply match_case_set_subseteq_cases.
Qed.

(** X2: for two non-empty path sets, the cases selected by their union are
    the cases selected by either. *)
Theorem suite_match_case_set_union s (paths1 paths2 : gset string) :
  paths1 ≠ ∅ → paths2 ≠ ∅ →
  Suite.match_case_set re_match s (paths1 ∪ paths2) =
  Suite.match_case_set re_match s paths1
  ∪ Suite.match_case_set re_match s paths2.
Proof.
  intros H1 H2. assert (H12 : paths1 ∪ paths2 ≠ ∅) by set_solver.
  apply set_eq. intros c.
  rewrite elem_of_union, !elem_of_match_case_set by done. split.
  - intros (pat & p & ? & [?|?]%elem_of_union & ? & ?);
      [left|right]; by exists pat, p.
  - intros [(pat & p & ? & ? & ? & ?)|(pat & p & ? & ? & ? & ?)];
      exists pat, p; split_and!; try done; set_solver.
Qed.

(** X3: with a non-empty path set, a selected case is the one [get_case]
    returns for its name; a case declared after another case of the same
    name is selected by no non-empty path set, and by the empty one. *)
Theorem suite_shadowed_case_selected_only_by_empty s paths c :
  paths ≠ ∅ →
  c ∈ Suite.cases s →
  Suite.get_case s (Case.name c) ≠ Some c →
  (c ∉ Suite.match_case_set re_match s paths) ∧
  c ∈ Suite.match_case_set re_match s ∅.
Proof.
  intros Hne Hc Hshadow. split.
  - intros (pat & p & _ & _ & _ & Hg)%elem_of_match_case_set; [|done].
    apply Hshadow. pose proof (get_case_elem_of _ _ _ Hg) as [_ Hn].
    by rewrite Hn.
  - rewrite match_case_set_empty. by apply elem_of_list_to_set.
Qed.

(** X4: in a suite whose cases have distinct names, [get_case] of the name
    of a declared case returns that case. *)
Theorem suite_get_case_of_declared_name s c :
  NoDup (Case.name <$> Suite.cases s) →
  c ∈ Suite.cases s →
  Suite.get_case s (Case.name c) = Some c.
Proof.
  unfold Suite.get_case. induction (Suite.cases s) as [|c0 cs IH]; simpl.
  - intros _ Hc. by apply elem_of_nil in Hc.
  - intros [Hc0 Hcs]%NoDup_cons [->|Hc]%elem_of_cons.
    + by rewrite decide_True.
    + rewrite decide_False; [by apply IH|].
      intros Heq. apply Hc0. rewrite Heq. apply list_elem_of_fmap.
      by exists c.
Qed.

(** X5: the selection depends on the patterns as a set: their order and
    their repetitions do not matter. *)
Theorem suite_patterns_as_a_set s (ps ps' : list Pattern.t) paths :
  (∀ pat, pat ∈ ps ↔ pat ∈ ps') →
  Suite.match_case_set re_match (Suite.with_patterns s ps) paths =
  Suite.match_case_set re_match (Suite.with_patterns s ps') paths.
Proof.
  intros Hsame. destruct (decide (paths = ∅)) as [->|Hne].
  - by rewrite !match_case_set_empty.
  - apply set_eq. intros c. rewrite !elem_of_match_case_set by done.
    simpl. setoid_rewrite with_patterns_get_case.
    split; intros (pat & p & ? & ? & ? & ?); exists pat, p;
      split_and!; try done; by apply Hsame.
Qed.

(** X6: a selection has at most as many cases as the suite declares, and
    for a non-empty path set at most as many as the suite has patterns. *)
Theorem suite_selection_size s paths :
  (size (Suite.match_case_set re_match s paths)
   ≤ length (Suite.cases s))%nat ∧
  (paths ≠ ∅ →
   (size (Suite.match_case_set re_match s paths)
    ≤ length (Suite.patterns s))%nat).
Proof.
  split.
  - etrans; [apply subseteq_size, match_case_set_subseteq_cases|].
    apply size_list_to_set_le.
  - intros Hne. unfold Suite.match_case_set.
    rewrite bool_decide_eq_true_2 by done.
    etrans; [apply size_outer_loop|]. by rewrite size_empty.
Qed.

(** X7: with the empty path set a suite matches exactly when it declares a
    case, and [Base.match_suite_set] returns the suites of the database
    that declare one. *)
Theorem empty_selector_matches_suites_with_cases s :
  (Suite.matches re_match s ∅ = true ↔ Suite.cases s ≠ []) ∧
  (∀ db, s ∈ Base.match_suite_set re_match db ∅ ↔
         s ∈ Base.suites db ∧ Suite.cases s ≠ []).
Proof.
  assert (Hm : Suite.matches re_match s ∅ = true ↔ Suite.cases s ≠ []).
  { rewrite matches_true, match_case_set_empty.
    setoid_rewrite elem_of_list_to_set. split.
    - intros [c Hc] Hnil. rewrite Hnil in Hc. by apply elem_of_nil in Hc.
    - destruct (Suite.cases s) as [|c cs]; [done|]. intros _. exists c. left. }
  split; [done|]. intros db. unfold Base.match_suite_set.
  by rewrite elem_of_list_to_set, list_elem_of_filter, Hm, (comm (∧)).
Qed.

(** X8: a suite without patterns selects no case for a non-empty path set,
    whatever cases it declares. *)
Theorem suite_without_patterns_selects_by_no_path s paths :
  Suite.patterns s = [] → paths ≠ ∅ →
  Suite.match_case_set re_match s paths = ∅ ∧
  Suite.matches re_match s paths = false.
Proof.
  intros Hnil Hne.
  assert (Hempty : Suite.match_case_set re_match s paths = ∅).
  { apply set_eq. intros c. split; [|set_solver].
    intros (pat & p & Hpat & _)%elem_of_match_case_set; [|done].
    rewrite Hnil in Hpat. by apply elem_of_nil in Hpat. }
  split; [done|]. unfold Suite.matches. rewrite Hempty.
  apply bool_decide_eq_false_2. by intros H.
Qed.

(** X9: the cases [Base.match_case_set] returns are the cases selected by
    the suites [Base.match_suite_set] returns, and one set is empty exactly
    when the other is. *)
Theorem base_cases_of_matching_suites db paths :
  (∀ c, c ∈ Base.match_case_set re_match db paths ↔
        ∃ s, s ∈ Base.match_suite_set re_match db paths ∧
             c ∈ Suite.match_case_set re_match s paths) ∧
  (Base.match_case_set re_match db paths = ∅ ↔
   Base.match_suite_set re_match db paths = ∅).
Proof.
  assert (Hc := elem_of_base_match_case_set re_match db paths).
  split; [done|]. split.
  - intros Hempty. apply set_eq. intros s.
    split; [|by intros ?%not_elem_of_empty].
    intros Hs. pose proof Hs as Hs'. unfold Base.match_suite_set in Hs'.
    rewrite elem_of_list_to_set, list_elem_of_filter in Hs'.
    destruct Hs' as [(c & Hcs)%matches_true _].
    assert (Hin : c ∈ Base.match_case_set re_match db paths)
      by (apply Hc; by exists s).
    rewrite Hempty in Hin. by apply not_elem_of_empty in Hin.
  - intros Hempty. apply set_eq. intros c.
    split; [|by intros ?%not_elem_of_empty].
    intros (s & Hs & _)%Hc. rewrite Hempty in Hs.
    by apply not_elem_of_empty in Hs.
Qed.

(** X10: with the empty path set, [Base.match_case_set] returns the cases
    declared by the suites of the database, all of them. *)
Theorem base_match_case_set_empty_selector db c :
  c ∈ Base.match_case_set re_match db ∅ ↔
  ∃ s, s ∈ Base.suites db ∧ c ∈ Suite.cases s.
Proof.
  unfold Base.match_case_set. rewrite elem_of_base_loop.
  setoid_rewrite match_case_set_empty.
  setoid_rewrite elem_of_list_to_set. split.
  - intros [H|?]; [by apply not_elem_of_empty in H|done].
  - intros ?. by right.
Qed.

(** X11: the suites and the cases a database selects depend on its suites
    as a set: their order and their repetitions do not matter. *)
Theorem base_suites_as_a_set db (ss ss' : list Suite.t) paths :
  (∀ s, s ∈ ss ↔ s ∈ ss') →
  Base.match_suite_set re_match (Base.with_suites db ss) paths =
    Base.match_suite_set re_match (Base.with_suites db ss') paths ∧
  Base.match_case_set re_match (Base.with_suites db ss) paths =
    Base.match_case_set re_match (Base.with_suites db ss') paths.
Proof.
  intros Hsame. split; apply set_eq.
  - intros s. unfold Base.match_suite_set. simpl.
    by rewrite !elem_of_list_to_set, !list_elem_of_filter, Hsame.
  - intros c. unfold Base.match_case_set. simpl.
    rewrite !elem_of_base_loop. by setoid_rewrite Hsame.
Qed.

(** X12: for two non-empty path sets, the suites and the cases a database
    selects for their union are those it selects for either. *)
Theorem base_match_union db (paths1 paths2 : gset string) :
  paths1 ≠ ∅ → paths2 ≠ ∅ →
  Base.match_suite_set re_match db (paths1 ∪ paths2) =
    Base.match_suite_set re_match db paths1
    ∪ Base.match_suite_set re_match db paths2 ∧
  Base.match_case_set re_match db (paths1 ∪ paths2) =
    Base.match_case_set re_match db paths1
    ∪ Base.match_case_set re_match db paths2.
Proof.
  intros H1 H2.
  assert (Hu : ∀ s c,
    c ∈ Suite.match_case_set re_match s (paths1 ∪ paths2) ↔
    c ∈ Suite.match_case_set re_match s paths1 ∨
    c ∈ Suite.match_case_set re_match s paths2).
  { intros s c. assert (H12 : paths1 ∪ paths2 ≠ ∅) by set_solver.
    rewrite !elem_of_match_case_set by done. split.
    - intros (pat & p & ? & [?|?]%elem_of_union & ? & ?);
        [left|right]; by exists pat, p.
    - intros [(pat & p & ? & ? & ? & ?)|(pat & p & ? & ? & ? & ?)];
        exists pat, p; split_and!; try done; set_solver. }
  split; apply set_eq.
  - intros s. unfold Base.match_suite_set.
    rewrite elem_of_union, !elem_of_list_to_set, !list_elem_of_filter.
    rewrite !matches_true. setoid_rewrite Hu. split.
    + intros [[c [?|?]] ?]; [left|right]; split; try done; by exists c.
    + intros [[[c ?] ?]|[[c ?] ?]]; split; try done; exists c; tauto.
  - intros c. unfold Base.match_case_set.
    rewrite elem_of_union, !elem_of_base_loop. setoid_rewrite Hu. split.
    + intros [H|(s & ? & [?|?])];
        [by apply not_elem_of_empty in H|left|right]; right; by exists s.
    + intros [[H|(s & ? & ?)]|[H|(s & ? & ?)]];
        try (by apply not_elem_of_empty in H); right; exists s; tauto.
Qed.

End SelectionExtras.

Lemma suite_match_case_set_union_witness :
  ({[ "drivers/net/e1000.c" ]} : gset string) ≠ ∅ ∧
  ({[ "fs/ext4.c" ]} : gset string) ≠ ∅ ∧
  Suite.match_case_set literal_match net_suite
    ({[ "drivers/net/e1000.c" ]} ∪ {[ "fs/ext4.c" ]}) =
  Suite.match_case_set literal_match net_suite {[ "drivers/net/e1000.c" ]}
  ∪ Suite.match_case_set literal_match net_suite {[ "fs/ext4.c" ]}.
Proof.
  split; [set_solver|]. split; [set_solver|].
  apply (suite_match_case_set_union literal_match net_suite
           {[ "drivers/net/e1000.c" ]} {[ "fs/ext4.c" ]}); set_solver.
Defined.

Lemma suite_shadowed_case_selected_only_by_empty_witness :
  ({[ "drivers/net/e1000.c" ]} : gset string) ≠ ∅ ∧
  net_tests_dup ∈ Suite.cases dup_suite ∧
  Suite.get_case dup_suite (Case.name net_tests_dup) ≠ Some net_tests_dup ∧
  (net_tests_dup ∉ Suite.match_case_set literal_match dup_suite
                     {[ "drivers/net/e1000.c" ]}) ∧
  net_tests_dup ∈ Suite.match_case_set literal_match dup_suite ∅.
Proof.
  assert (H1 : ({[ "drivers/net/e1000.c" ]} : gset string) ≠ ∅)
    by set_solver.
  assert (H2 : net_tests_dup ∈ Suite.cases dup_suite) by (right; left).
  assert (H3 : Suite.get_case dup_suite (Case.name net_tests_dup)
               ≠ Some net_tests_dup) by (by vm_compute).
  split_and!; [done..| |];
    apply (suite_shadowed_case_selected_only_by_empty literal_match
             dup_suite {[ "drivers/net/e1000.c" ]} net_tests_dup H1 H2 H3).
Defined.

Lemma suite_get_case_of_declared_name_witness :
  NoDup (Case.name <$> Suite.cases kernel_suite) ∧
  block_tests ∈ Suite.cases kernel_suite ∧
  Suite.get_case kernel_suite (Case.name block_tests) = Some block_tests.
Proof.
  assert (H1 : NoDup (Case.name <$> Suite.cases kernel_suite)).
  { apply (bool_decide_unpack
             (NoDup ["net-tests"; "mm-tests"; "block-tests"])).
    by vm_compute. }
  assert (H2 : block_tests ∈ Suite.cases kernel_suite)
    by (right; right; left).
  split_and!; [done..|].
  apply (suite_get_case_of_declared_name kernel_suite block_tests H1 H2).
Defined.

Lemma suite_patterns_as_a_set_witness :
  (∀ pat, pat ∈ [fs_pattern; net_pattern]
          ↔ pat ∈ [net_pattern; fs_pattern; net_pattern]) ∧
  Suite.match_case_set literal_match
    (Suite.with_patterns net_suite [fs_pattern; net_pattern])
    {[ "drivers/net/e1000.c" ]} =
  Suite.match_case_set literal_match
    (Suite.with_patterns net_suite [net_pattern; fs_pattern; net_pattern])
    {[ "drivers/net/e1000.c" ]}.
Proof.
  assert (H1 : ∀ pat, pat ∈ [fs_pattern; net_pattern]
                      ↔ pat ∈ [net_pattern; fs_pattern; net_pattern]).
  { intros pat. rewrite !elem_of_cons. tauto. }
  split; [done|].
  apply (suite_patterns_as_a_set literal_match net_suite
           [fs_pattern; net_pattern] [net_pattern; fs_pattern; net_pattern]
           {[ "drivers/net/e1000.c" ]} H1).
Defined.

Lemma suite_without_patterns_selects_by_no_path_witness :
  Suite.patterns (mk_suite 14 [] [net_tests]) = [] ∧
  ({[ "drivers/net/e1000.c" ]} : gset string) ≠ ∅ ∧
  Suite.match_case_set literal_match (mk_suite 14 [] [net_tests])
    {[ "drivers/net/e1000.c" ]} = ∅.
Proof.
  assert (H2 : ({[ "drivers/net/e1000.c" ]} : gset string) ≠ ∅)
    by set_solver.
  split_and!; [done..|].
  apply (suite_without_patterns_selects_by_no_path literal_match
           (mk_suite 14 [] [net_tests]) {[ "drivers/net/e1000.c" ]}
           eq_refl H2).
Defined.

Lemma base_suites_as_a_set_witness :
  (∀ s, s ∈ [net_suite; dup_suite] ↔ s ∈ [dup_suite; net_suite; dup_suite]) ∧
  Base.match_suite_set literal_match
    (Base.with_suites example_db [net_suite; dup_suite])
    {[ "drivers/net/e1000.c" ]} =
  Base.match_suite_set literal_match
    (Base.with_suites example_db [dup_suite; net_suite; dup_suite])
    {[ "drivers/net/e1000.c" ]}.
Proof.
  assert (H1 : ∀ s, s ∈ [net_suite; dup_suite]
                    ↔ s ∈ [dup_suite; net_suite; dup_suite]).
  { intros s. rewrite !elem_of_cons. tauto. }
  split; [done|].
  apply (base_suites_as_a_set literal_match example_db
           [net_suite; dup_suite] [dup_suite; net_suite; dup_suite]
           {[ "drivers/net/e1000.c" ]} H1).
Defined.

Lemma base_match_union_witness :
  ({[ "drivers/net/e1000.c" ]} : gset string) ≠ ∅ ∧
  ({[ "fs/ext4.c" ]} : gset string) ≠ ∅ ∧
  Base.match_case_set literal_match example_db
    ({[ "drivers/net/e1000.c" ]} ∪ {[ "fs/ext4.c" ]}) =
  Base.match_case_set literal_match example_db {[ "drivers/net/e1000.c" ]}
  ∪ Base.match_case_set literal_match example_db {[ "fs/ext4.c" ]}.
Proof.
  assert (H1 : ({[ "drivers/net/e1000.c" ]} : gset string) ≠ ∅)
    by set_solver.
  assert (H2 : ({[ "fs/ext4.c" ]} : gset string) ≠ ∅) by set_solver.
  split_and!; [done..|].
  apply (base_match_union literal_match example_db
           {[ "drivers/net/e1000.c" ]} {[ "fs/ext4.c" ]} H1 H2).
Defined.

(* ===================================================================== *)
(** * Further properties: the typed object binder *)
(* ===================================================================== *)

(** X13: when the resolved data is a valid dict that lacks a required key,
    the constructor raises [KeyError] for the first required key that is
    missing. *)
Theorem object_init_missing_required_key (type_name : string)
    (schema : Object.Schema) (raw : data) (items : dict)
    (struct : Object.Struct) :
  Object.resolve schema raw = Ok (DDict items) →
  Object.recognize schema = Some struct →
  Object.validate struct (DDict items) = Ok () →
  (∃ n, n ∈ Object.required struct ∧ dict_get items n = None) →
  ∃ before n after,
    Object.required struct = before ++ n :: after ∧
    (∀ k, k ∈ before → is_Some (dict_get items k)) ∧
    dict_get items n = None ∧
    Object.init type_name schema raw = Raise (KeyError n).
Proof.
  intros Hres Hrec Hval Hmiss. unfold Object.init.
  rewrite Hres, Hrec, Hval.
  destruct (assign_required_missing (Object.required struct) items []
              Hmiss) as (before & n & after & Heq & Hb & Hn & ->).
  by exists before, n, after.
Qed.

(** X14: when the required and optional keys of the recognized struct are
    all distinct, the attributes of a constructed instance are set in the
    order of the required keys followed by the optional keys. *)
Theorem object_init_attribute_order (type_name : string)
    (schema : Object.Schema) (raw : data) (struct : Object.Struct)
    (self : dict) :
  Object.recognize schema = Some struct →
  NoDup (Object.required struct ++ Object.optional struct) →
  Object.init type_name schema raw = Ok self →
  dict_keys self = Object.required struct ++ Object.optional struct.
Proof.
  intros Hrec [Hreq [Hdisj Hopt]]%NoDup_app. unfold Object.init.
  rewrite Hrec.
  destruct (Object.resolve schema raw) as [d|e];
    [|by destruct (is_Invalid e)].
  destruct (Object.validate struct d) as [[]|e];
    [|by destruct (is_Invalid e)].
  destruct (Object.assign_required (Object.required struct) d [])
    as [mid|e] eqn:Hmid; simpl; [|done].
  intros Hself.
  apply assign_required_keys in Hmid; [|done|].
  2:{ intros n _ Hn. by apply elem_of_nil in Hn. }
  apply assign_optional_keys in Hself; [|done|].
  - by rewrite Hself, Hmid.
  - intros n Hn. rewrite Hmid. simpl. intros Hn'. by apply (Hdisj n).
Qed.

(** X15: an [Invalid] exception leaves the constructor only when
    [schema.resolve] raised [Invalid], and it is then the exception built
    from "Invalid {} data" and the type name: the exception of [resolve]
    is not passed on. *)
Theorem object_init_invalid_is_wrapped (type_name : string)
    (schema : Object.Schema) (raw : data) (e : exn) :
  Object.init type_name schema raw = Raise e →
  is_Invalid e = true →
  e = Invalid "Invalid {} data" [type_name] ∧
  ∃ e0, Object.resolve schema raw = Raise e0 ∧ is_Invalid e0 = true.
Proof.
  unfold Object.init.
  destruct (Object.resolve schema raw) as [d|e0] eqn:Hres.
  - destruct (Object.recognize schema) as [struct|]; [|by intros [= <-]].
    destruct (Object.validate struct d) as [[]|e1].
    + destruct (Object.assign_required (Object.required struct) d [])
        as [mid|e2] eqn:Hmid; simpl.
      * intros He%assign_optional_Raise. congruence.
      * intros [= <-]. apply assign_required_Raise in Hmid. congruence.
    + destruct (is_Invalid e1) eqn:He1; intros [= <-]; [done|congruence].
  - destruct (is_Invalid e0) eqn:He0; intros [= <-]; [|congruence].
    intros _. split; [done|]. by exists e0.
Qed.

(** X16: a constructed instance depends on the resolved dict through the
    keys the recognized struct declares: two resolved dicts that agree on
    those keys give the same instance, or the same exception. *)
Theorem object_init_reads_declared_keys (type_name : string)
    (schema schema' : Object.Schema) (raw raw' : data) (items items' : dict)
    (struct : Object.Struct) :
  Object.resolve schema raw = Ok (DDict items) →
  Object.resolve schema' raw' = Ok (DDict items') →
  Object.recognize schema = Some struct →
  Object.recognize schema' = Some struct →
  Object.validate struct (DDict items) = Ok () →
  Object.validate struct (DDict items') = Ok () →
  (∀ n, n ∈ Object.required struct ++ Object.optional struct →
        dict_get items n = dict_get items' n) →
  Object.init type_name schema raw = Object.init type_name schema' raw'.
Proof.
  intros Hres Hres' Hrec Hrec' Hval Hval' Hagree. unfold Object.init.
  rewrite Hres, Hres', Hrec, Hrec', Hval, Hval'.
  rewrite (assign_required_agree _ items items').
  2:{ intros n Hn. apply Hagree, elem_of_app. by left. }
  destruct (Object.assign_required _ _ _) as [mid|e]; simpl; [|done].
  apply assign_optional_agree. intros n Hn. apply Hagree, elem_of_app.
  by right.
Qed.

Lemma object_init_missing_required_key_witness :
  ∃ n, Object.init "Suite" lenient_schema
         (DDict [("name", DStr "net"); ("tasks", DStr "t.xml")])
       = Raise (KeyError n).
Proof.
  destruct (object_init_missing_required_key "Suite" lenient_schema
              (DDict [("name", DStr "net"); ("tasks", DStr "t.xml")])
              [("name", DStr "net"); ("tasks", DStr "t.xml")]
              {| Object.required := ["name"; "version"];
                 Object.optional := ["tasks"];
                 Object.validate := λ _, Ok () |}
              eq_refl eq_refl eq_refl)
    as (before & n & after & _ & _ & _ & Hinit).
  - exists "version". split; [right; left|reflexivity].
  - by exists n.
Defined.

Lemma object_init_attribute_order_witness :
  dict_keys [("name", DStr "net"); ("version", DStr "1"); ("tasks", DNone)]
  = ["name"; "version"] ++ ["tasks"].
Proof.
  apply (object_init_attribute_order "Suite" lenient_schema
           (DDict [("version", DStr "1"); ("name", DStr "net")])
           {| Object.required := ["name"; "version"];
              Object.optional := ["tasks"];
              Object.validate := λ _, Ok () |}
           [("name", DStr "net"); ("version", DStr "1"); ("tasks", DNone)]
           eq_refl).
  - apply (bool_decide_unpack (NoDup (["name"; "version"] ++ ["tasks"]))).
    by vm_compute.
  - reflexivity.
Defined.

Lemma object_init_invalid_is_wrapped_witness :
  Invalid "Invalid {} data" ["Case"] = Invalid "Invalid {} data" ["Case"] ∧
  ∃ e0, Object.resolve rejecting_schema DNone = Raise e0 ∧
        is_Invalid e0 = true.
Proof.
  apply (object_init_invalid_is_wrapped "Case" rejecting_schema DNone
           (Invalid "Invalid {} data" ["Case"])); reflexivity.
Defined.

Lemma object_init_reads_declared_keys_witness :
  Object.init "Suite" lenient_schema
    (DDict [("name", DStr "net"); ("version", DStr "1")])
  = Object.init "Suite" lenient_schema
      (DDict [("owner", DStr "me"); ("version", DStr "1");
              ("name", DStr "net")]).
Proof.
  apply (object_init_reads_declared_keys "Suite" lenient_schema
           lenient_schema _ _
           [("name", DStr "net"); ("version", DStr "1")]
           [("owner", DStr "me"); ("version", DStr "1");
            ("name", DStr "net")]
           {| Object.required := ["name"; "version"];
              Object.optional := ["tasks"];
              Object.validate := λ _, Ok () |});
    try reflexivity.
  intros n Hn. simpl in Hn.
  repeat (apply elem_of_cons in Hn as [->|Hn]; [reflexivity|]).
  by apply elem_of_nil in Hn.
Defined.

(* ===================================================================== *)
(** * Further properties: the migration function *)
(* ===================================================================== *)

(** X17: what [convert] does with every kind of argument: a dict with a
    dict under [suites] is converted into a new object; a dict without
    [suites] is a [KeyError]; a dict with another value under [suites] is
    an [AttributeError]; a list is copied and then a [TypeError]; any other
    value, having no [copy], is an [AttributeError]. *)
Theorem convert_cases (σ : store) (old_data : positive) (d : data) :
  σ !! old_data = Some d →
  convert old_data σ =
    match d with
    | DDict items =>
        match dict_get items "suites" with
        | None => Raise (KeyError "suites")
        | Some (DDict suites) =>
            Ok (fresh (dom σ),
                <[fresh (dom σ) :=
                    DDict (dict_set items "suites"
                                    (DList (dict_values suites)))]> σ)
        | Some _ => Raise AttributeError
        end
    | DList _ => Raise TypeError
    | _ => Raise AttributeError
    end.
Proof. apply convert_by_cases. Qed.

(** X18: [convert] cannot be applied to its own result: the [suites] of
    the converted dict are a list, which has no [values]. *)
Theorem convert_twice_fails (σ σ' : store) (old_data data : positive) :
  convert old_data σ = Ok (data, σ') →
  convert data σ' = Raise AttributeError.
Proof.
  destruct (σ !! old_data) as [d|] eqn:Hold;
    [|by unfold convert, copy; rewrite Hold].
  rewrite (convert_by_cases σ old_data d Hold).
  destruct d as [| | | | |l|items|c a]; try done.
  destruct (dict_get items "suites") as [[| | | | | |suites|]|]; try done.
  intros [= <- <-].
  rewrite (convert_by_cases _ _
             (DDict (dict_set items "suites"
                              (DList (dict_values suites)))))
    by apply lookup_insert_eq.
  by rewrite dict_get_set_eq.
Qed.

(** X19: when [convert] returns, the dict it returns is an object of its
    own, not its argument and not an object that was there before, and its
    argument and every other object that was there are as they were. *)
Theorem convert_returns_new_object (σ σ' : store)
    (old_data data : positive) :
  convert old_data σ = Ok (data, σ') →
  (data ∉ dom σ) ∧ data ≠ old_data ∧
  σ' !! old_data = σ !! old_data ∧
  (∀ ref, ref ∈ dom σ → σ' !! ref = σ !! ref).
Proof.
  destruct (σ !! old_data) as [d|] eqn:Hold;
    [|by unfold convert, copy; rewrite Hold].
  rewrite (convert_by_cases σ old_data d Hold).
  destruct d as [| | | | |l|items|c a]; try done.
  destruct (dict_get items "suites") as [[| | | | | |suites|]|]; try done.
  intros [= <- <-].
  assert (Hframe : ∀ ref, ref ∈ dom σ →
            <[fresh (dom σ) := DDict (dict_set items "suites"
                                  (DList (dict_values suites)))]> σ !! ref
            = σ !! ref).
  { intros ref Href. apply lookup_insert_ne. intros Heq.
    rewrite <- Heq in Href. by apply is_fresh in Href. }
  assert (Hin : old_data ∈ dom σ) by (apply elem_of_dom; eauto).
  split_and!.
  - apply is_fresh.
  - intros Heq. rewrite <- Heq in Hin. by apply is_fresh in Hin.
  - by rewrite Hframe.
  - exact Hframe.
Qed.

Lemma convert_cases_witness :
  convert 1 {[ 1%positive := DDict [("trees", DDict [])] ]}
  = Raise (KeyError "suites").
Proof.
  apply (convert_cases {[ 1%positive := DDict [("trees", DDict [])] ]} 1
           (DDict [("trees", DDict [])])).
  reflexivity.
Defined.

Lemma convert_twice_fails_witness :
  ∃ data σ',
    convert 1 {[ 1%positive := DDict legacy_items ]} = Ok (data, σ') ∧
    convert data σ' = Raise AttributeError.
Proof.
  destruct (convert 1 {[ 1%positive := DDict legacy_items ]})
    as [[data σ']|e] eqn:Hconvert; [|by vm_compute in Hconvert].
  exists data, σ'. split; [done|].
  apply (convert_twice_fails {[ 1%positive := DDict legacy_items ]} σ' 1
           data Hconvert).
Defined.

Lemma convert_returns_new_object_witness :
  ∃ data σ',
    convert 1 {[ 1%positive := DDict legacy_items ]} = Ok (data, σ') ∧
    data ≠ 1%positive ∧
    σ' !! 1%positive = Some (DDict legacy_items).
Proof.
  destruct (convert 1 {[ 1%positive := DDict legacy_items ]})
    as [[data σ']|e] eqn:Hconvert; [|by vm_compute in Hconvert].
  exists data, σ'. split; [done|].
  destruct (convert_returns_new_object
              {[ 1%positive := DDict legacy_items ]} σ' 1 data Hconvert)
    as (_ & Hne & Hold & _).
  split; [done|]. by rewrite Hold.
Defined.

(* ===================================================================== *)
(** * Further properties: run generation and construction *)
(* ===================================================================== *)

Section RenderingExtras.

Context (re_match : string → string → bool).
Context (os_getenv : string → option string).
Context {Template Element : Type}.
Context (get_template : JinjaEnvironment → string → result Template).
Context (render : Template → Params.t → result string).
Context (etree_XML : string → XMLParser → result Element).
Context (etree_tostring : Element → TostringOptions → string).
Context (decode : string → string → result string).

Local Abbreviation generate_run :=
  (Base.generate_run re_match os_getenv get_template render etree_XML
                     etree_tostring decode).

(** X20: every exception that leaves [generate_run] is the assertion on
    the tree name, or the exception of the template loader, of the
    rendering, or, with [lint] set, of the XML parser or of the decoding of
    the serialized document. *)
Theorem generate_run_failure_causes (self : Base.t)
    (description tree_name arch_name kernel_location : string)
    (src_path_set : gset string) (lint : bool) (e : exn) :
  let params := Base.run_params re_match os_getenv self description
                  tree_name arch_name kernel_location src_path_set in
  let parser := {| remove_blank_text := true;
                   parser_encoding := "utf-8" |} in
  let options := {| tostring_encoding := "utf-8";
                    xml_declaration := true;
                    pretty_print := true |} in
  generate_run self description tree_name arch_name kernel_location
               src_path_set lint = Raise e →
  ((tree_name ∉ dom (Base.trees self)) ∧ e = AssertionError) ∨
  ∃ template_path,
    Base.trees self !! tree_name = Some template_path ∧
    (get_template (Base.jinja_env self) template_path = Raise e ∨
     ∃ template,
       get_template (Base.jinja_env self) template_path = Ok template ∧
       (render template params = Raise e ∨
        ∃ text,
          render template params = Ok text ∧ lint = true ∧
          (etree_XML text parser = Raise e ∨
           ∃ tree, etree_XML text parser = Ok tree ∧
                   decode (etree_tostring tree options) "utf-8"
                   = Raise e))).
Proof.
  intros params parser options. unfold Base.generate_run.
  case_bool_decide as Htree; [|intros [= <-]; by left].
  unfold Base.get_tree_template.
  destruct (Base.trees self !! tree_name) as [template_path|] eqn:Hpath.
  2:{ apply elem_of_dom in Htree as [? ?]. congruence. }
  intros Hrun. right. exists template_path. split; [done|].
  destruct (get_template (Base.jinja_env self) template_path)
    as [template|e0]; [|left; by injection Hrun as ->].
  right. exists template. split; [done|]. simpl in Hrun. fold params in Hrun.
  destruct (render template params) as [text|e0];
    [|left; by injection Hrun as ->].
  right. exists text. split; [done|]. simpl in Hrun.
  destruct lint; [|done]. split; [done|].
  unfold Base.lint_text in Hrun. fold parser options in Hrun.
  destruct (etree_XML text parser) as [tree|e0];
    [|left; by injection Hrun as ->].
  right. by exists tree.
Qed.

(** X21: setting [lint] only adds failures: a run that succeeds with
    [lint] set succeeds without it, returning the text the lint pass took
    as input, and a run that fails without [lint] fails with it, with the
    same exception. *)
Theorem generate_run_lint_only_adds_failures (self : Base.t)
    (description tree_name arch_name kernel_location : string)
    (src_path_set : gset string) :
  (∀ out,
     generate_run self description tree_name arch_name kernel_location
                  src_path_set true = Ok out →
     ∃ text,
       generate_run self description tree_name arch_name kernel_location
                    src_path_set false = Ok text ∧
       Base.lint_text etree_XML etree_tostring decode text = Ok out) ∧
  (∀ e,
     generate_run self description tree_name arch_name kernel_location
                  src_path_set false = Raise e →
     generate_run self description tree_name arch_name kernel_location
                  src_path_set true = Raise e).
Proof.
  unfold Base.generate_run. case_bool_decide; [|done].
  destruct (Base.get_tree_template get_template self tree_name)
    as [template|e0]; [|done].
  simpl.
  destruct (render template _) as [text|e0]; [|done]. simpl. split.
  - intros out Hout. by exists text.
  - done.
Qed.

(** X22: the matching functions handed to the template select within the
    [SUITE_SET] handed to it: the suites they return are in [SUITE_SET],
    and every case they return is declared by a suite of [SUITE_SET]. *)
Theorem run_params_select_within_suite_set (self : Base.t)
    (description tree_name arch_name kernel_location : string)
    (src_path_set paths : gset string) :
  let params := Base.run_params re_match os_getenv self description
                  tree_name arch_name kernel_location src_path_set in
  Params.match_suite_set params paths ⊆ Params.SUITE_SET params ∧
  (∀ c, c ∈ Params.match_case_set params paths →
        ∃ s, s ∈ Params.SUITE_SET params ∧ c ∈ Suite.cases s).
Proof.
  simpl. split.
  - intros s. unfold Base.match_suite_set.
    rewrite !elem_of_list_to_set, list_elem_of_filter. tauto.
  - intros c (s & Hs & Hc)%elem_of_base_match_case_set. exists s.
    unfold Base.match_suite_set in Hs.
    rewrite elem_of_list_to_set, list_elem_of_filter in Hs.
    split; [apply elem_of_list_to_set; tauto|].
    apply match_case_set_subseteq_cases in Hc.
    by apply elem_of_list_to_set in Hc.
Qed.

End RenderingExtras.

(** X23: [Base.__init__] fails its assertion on a directory without
    [index.yaml]; a constructed database has its directory in [dir_path],
    whatever the index document says. *)
Theorem base_init_directory (fs : gmap string data)
    (path_join : string → string → string) (dirname : string → string)
    (re_compiles : string → bool) (dir_path : string) :
  (fs !! Base.index_path dir_path = None →
   Base.init fs path_join dirname re_compiles dir_path
   = Raise AssertionError) ∧
  (∀ self,
     Base.init fs path_join dirname re_compiles dir_path = Ok self →
     is_Some (fs !! Base.index_path dir_path) ∧
     dict_get self "dir_path" = Some (DStr dir_path)).
Proof.
  unfold Base.init, Base.is_dir_valid. split.
  - intros Hnone. rewrite bool_decide_eq_false_2; [done|].
    rewrite Hnone. by intros [? ?].
  - intros self. case_bool_decide as Hfile; [|done].
    destruct (Object.init _ _ _) as [attrs|e]; [|done]. simpl.
    intros [= <-]. split; [done|]. apply dict_get_set_eq.
Qed.

Lemma generate_run_failure_causes_witness :
  Base.generate_run literal_match no_environment toy_get_template toy_render
    toy_XML toy_tostring toy_decode example_db "nightly" "rhel" "x86_64"
    "http://example/kernel.tar.gz" ∅ true = Raise AssertionError ∧
  (("rhel" ∉ dom (Base.trees example_db)) ∨
   ∃ template_path, Base.trees example_db !! "rhel" = Some template_path).
Proof.
  assert (Hrun :
    Base.generate_run literal_match no_environment toy_get_template
      toy_render toy_XML toy_tostring toy_decode example_db "nightly" "rhel"
      "x86_64" "http://example/kernel.tar.gz" ∅ true = Raise AssertionError)
    by (by vm_compute).
  split; [done|].
  destruct (generate_run_failure_causes literal_match no_environment
              toy_get_template toy_render toy_XML toy_tostring toy_decode
              example_db "nightly" "rhel" "x86_64"
              "http://example/kernel.tar.gz" ∅ true AssertionError Hrun)
    as [[H _]|(path & Hpath & _)].
  - by left.
  - right. by exists path.
Defined.
